(** * Compound-interest calculator (script.js): model and verification

    The five solvers of script.js and the form controller
    [performCalculation] / [updateInputStates], embedded over the kernel's
    binary64 floats (JavaScript's Number type).  The solvers are modelled
    on arguments that are numbers, NaN and the infinities included, which
    is what the controller passes them. *)

From Stdlib Require Import ZArith Bool List String Ascii Lia.
From Stdlib Require Import Floats.
From Stdlib Require Import Reals Lra.
Import ListNotations.

Local Open Scope string_scope.
Local Open Scope float_scope.

(** ** JavaScript numbers and the host's built-ins *)

(** [x > y] of JavaScript, on numbers. *)
Definition gtb (x y : float) : bool := y <? x.

(** The global [isNaN] and [isFinite], on numbers. *)
Definition isNaN (x : float) : bool := PrimFloat.is_nan x.
Definition isFinite (x : float) : bool := PrimFloat.is_finite x.

(** The built-ins script.js calls and does not define.  ECMAScript leaves
    [Math.pow] and [Math.log] implementation-approximated, so they are taken
    from the host, as are the parsers and formatters the controller uses. *)
Record Host : Type := mkHost {
  Math_pow : float -> float -> float;
  Math_log : float -> float;
  Math_round : float -> float;
  parseFloat : string -> float;
  parseInt : string -> float;
  toFixed : float -> nat -> string;
  Number_toString : float -> string
}.

(** ** Results *)

(** A solver returns an object literal with one of the properties [error],
    [message], [value]; a property that is absent reads as [undefined]. *)
Record Result : Type := mkResult {
  error : option string;
  message : option string;
  value : option float
}.

Definition error_result (s : string) : Result := mkResult (Some s) None None.
Definition message_result (s : string) : Result := mkResult None (Some s) None.
Definition value_result (v : float) : Result := mkResult None None (Some v).

(** Truthiness of a property holding a string or [undefined]. *)
Definition truthy (p : option string) : bool :=
  match p with
  | Some s => negb (s =? "")%string
  | None => false
  end.

(** ** The messages of script.js *)

Definition msg_amount_guard : string :=
  "Principal, Rate, Time, and Frequency must be positive. Rate can be zero.".
Definition msg_principal_guard : string :=
  "Amount, Rate, Time, and Frequency must be positive. Rate can be zero.".
Definition msg_rate_guard : string :=
  "Amount, Principal, Time, and Frequency must be positive.".
Definition msg_rate_shrink : string :=
  "Final Amount (A) cannot be less than Principal (P) when calculating rate.".
Definition msg_rate_negative_ratio : string :=
  "Cannot calculate rate with negative A/P ratio (should not happen with positive A, P).".
Definition msg_rate_invalid : string :=
  "Could not calculate a valid rate. Check input values.".
Definition msg_time_guard : string :=
  "Amount, Principal, Rate, and Frequency must be positive for time calculation.".
Definition msg_time_shrink : string :=
  "Final Amount (A) cannot be less than Principal (P) if rate is positive.".
Definition msg_time_zero_rate : string :=
  "Rate must be greater than 0 for Amount to grow.".
Definition msg_time_div_zero : string :=
  "Cannot calculate time. Possible division by zero (check rate and frequency).".
Definition msg_time_ratio : string :=
  "Cannot calculate time with non-positive A/P ratio.".
Definition msg_time_log : string :=
  "Cannot calculate time due to log of non-positive value in denominator.".
Definition msg_time_invalid : string :=
  "Could not calculate a valid time. Check input values (e.g. A < P with positive rate).".
Definition msg_frequency : string :=
  "Solving for Compounding Frequency (n) directly is mathematically complex and not supported by this calculator. Consider testing different 'n' values by solving for 'A'.".
Definition msg_invalid_selection : string :=
  "Invalid selection for 'solve for'.".

(** ** The solvers *)

Section Solvers.

Variable host : Host.

Definition calculateFinalAmount (P R_annual T_years n_compound_freq : float) : Result :=
  if (P <=? 0) || (R_annual <? 0) || (T_years <=? 0) || (n_compound_freq <=? 0) then
    error_result msg_amount_guard
  else
    let R_decimal := R_annual / 100 in
    let A := P * Math_pow host (1 + R_decimal / n_compound_freq) (n_compound_freq * T_years) in
    value_result A.

Definition calculatePrincipal (A R_annual T_years n_compound_freq : float) : Result :=
  if (A <=? 0) || (R_annual <? 0) || (T_years <=? 0) || (n_compound_freq <=? 0) then
    error_result msg_principal_guard
  else
    let R_decimal := R_annual / 100 in
    let P := A / Math_pow host (1 + R_decimal / n_compound_freq) (n_compound_freq * T_years) in
    value_result P.

Definition calculateRate (A P T_years n_compound_freq : float) : Result :=
  if (A <=? 0) || (P <=? 0) || (T_years <=? 0) || (n_compound_freq <=? 0) then
    error_result msg_rate_guard
  else if A <? P then
    error_result msg_rate_shrink
  else
    let base := A / P in
    let exponent := 1 / (n_compound_freq * T_years) in
    if base <? 0 then error_result msg_rate_negative_ratio
    else
      let term := Math_pow host base exponent in
      let R_decimal := n_compound_freq * (term - 1) in
      if isNaN R_decimal || negb (isFinite R_decimal) then
        error_result msg_rate_invalid
      else
        let R_annual := R_decimal * 100 in
        value_result R_annual.

Definition calculateTime (A P R_annual n_compound_freq : float) : Result :=
  if (A <=? 0) || (P <=? 0) || (R_annual <=? 0) || (n_compound_freq <=? 0) then
    error_result msg_time_guard
  else if (A <? P) && gtb R_annual 0 then
    error_result msg_time_shrink
  else if (A =? P) && gtb R_annual 0 then
    value_result 0
  else if gtb A P && (R_annual =? 0) then
    error_result msg_time_zero_rate
  else
    let R_decimal := R_annual / 100 in
    let numerator := Math_log host (A / P) in
    let denominator :=
      n_compound_freq * Math_log host (1 + R_decimal / n_compound_freq) in
    if denominator =? 0 then error_result msg_time_div_zero
    else if A / P <=? 0 then error_result msg_time_ratio
    else if 1 + R_decimal / n_compound_freq <=? 0 then error_result msg_time_log
    else
      let T_years := numerator / denominator in
      if isNaN T_years || negb (isFinite T_years) then
        error_result msg_time_invalid
      else
        value_result T_years.

Definition calculateFrequency (A P R_annual T_years : float) : Result :=
  message_result msg_frequency.

End Solvers.

(** ** Error taxonomy *)

(** The error classes of the specification (section 7), read off the
    messages above: the guards on sign and positivity are [InvalidInput];
    the checks that relate two inputs (A < P, or A > P at rate zero) are
    [DomainViolation]; the checks on a computed quantity are
    [NumericDomainError].  [UnsupportedOperation] names the frequency case,
    which script.js reports as a message and not as an error. *)
Inductive ErrorClass : Type :=
  | InvalidInput
  | DomainViolation
  | NumericDomainError
  | UnsupportedOperation.

Definition one_of (msg : string) (l : list string) : bool :=
  existsb (String.eqb msg) l.

Definition error_class (msg : string) : option ErrorClass :=
  if one_of msg [msg_amount_guard; msg_principal_guard; msg_rate_guard; msg_time_guard]
  then Some InvalidInput
  else if one_of msg [msg_rate_shrink; msg_time_shrink; msg_time_zero_rate]
  then Some DomainViolation
  else if one_of msg [msg_rate_negative_ratio; msg_rate_invalid; msg_time_div_zero;
                      msg_time_ratio; msg_time_log; msg_time_invalid]
  then Some NumericDomainError
  else None.

Definition result_class (r : Result) : option ErrorClass :=
  match error r with
  | Some msg => error_class msg
  | None => None
  end.

(** [r] is a failure of class [c]. *)
Definition fails_with (c : ErrorClass) (r : Result) : Prop :=
  result_class r = Some c.

(** [r] carries exactly one of the three properties. *)
Definition exactly_one (r : Result) : bool :=
  match error r, message r, value r with
  | Some _, None, None => true
  | None, Some _, None => true
  | None, None, Some _ => true
  | _, _, _ => false
  end.

(** ** The form *)

(** The five fields, named by the keys of the [inputs] object. *)
Inductive Field : Type := principal | rate | time | frequency | amount.

Definition field_key (fld : Field) : string :=
  match fld with
  | principal => "principal"
  | rate => "rate"
  | time => "time"
  | frequency => "frequency"
  | amount => "amount"
  end.

(** [inputs[key]], for the own keys of [inputs].  What the lookup finds
    under other keys, through the prototype of the object literal, is told
    by [updateInputStates_completion] below. *)
Definition inputs (key : string) : option Field :=
  if (key =? "principal")%string then Some principal
  else if (key =? "rate")%string then Some rate
  else if (key =? "time")%string then Some time
  else if (key =? "frequency")%string then Some frequency
  else if (key =? "amount")%string then Some amount
  else None.

(** An input element: the properties the script reads and writes. *)
Record InputElement : Type := mkInput {
  input_value : string;
  disabled : bool;
  backgroundColor : string
}.

Record Form : Type := mkForm {
  principalInput : InputElement;
  rateInput : InputElement;
  timeInput : InputElement;
  frequencyInput : InputElement;
  amountInput : InputElement;
  solveForSelect : string
}.

Definition get_input (frm : Form) (fld : Field) : InputElement :=
  match fld with
  | principal => principalInput frm
  | rate => rateInput frm
  | time => timeInput frm
  | frequency => frequencyInput frm
  | amount => amountInput frm
  end.

Definition set_input (frm : Form) (fld : Field) (i : InputElement) : Form :=
  match fld with
  | principal =>
      mkForm i (rateInput frm) (timeInput frm) (frequencyInput frm) (amountInput frm)
        (solveForSelect frm)
  | rate =>
      mkForm (principalInput frm) i (timeInput frm) (frequencyInput frm) (amountInput frm)
        (solveForSelect frm)
  | time =>
      mkForm (principalInput frm) (rateInput frm) i (frequencyInput frm) (amountInput frm)
        (solveForSelect frm)
  | frequency =>
      mkForm (principalInput frm) (rateInput frm) (timeInput frm) i (amountInput frm)
        (solveForSelect frm)
  | amount =>
      mkForm (principalInput frm) (rateInput frm) (timeInput frm) (frequencyInput frm) i
        (solveForSelect frm)
  end.

(** The order in which [for (const key in inputs)] and the validation chain
    visit the fields. *)
Definition field_order : list Field := [principal; rate; time; frequency; amount].

Definition enable (i : InputElement) : InputElement := mkInput (input_value i) false "".

(** The form a call of [updateInputStates] leaves behind.  The loop of lines
    135 to 139 enables the five fields; lines 143 to 145 then write to
    [inputs[solveForValue]].  Under an own key that is the target's field.
    Under any other key no field is written to, whether the lookup finds
    nothing or an inherited property (on which the call throws at line 145,
    see [updateInputStates_completion]). *)
Definition updateInputStates (frm : Form) : Form :=
  let solveForValue := solveForSelect frm in
  let enabled :=
    fold_left (fun f key => set_input f key (enable (get_input f key))) field_order frm in
  match inputs solveForValue with
  | Some fld => set_input enabled fld (mkInput "" true "#e9e9e9")
  | None => enabled
  end.

(** The user's two actions on the form: typing into a field that is not
    disabled, and choosing a target (which fires [change]). *)
Definition type_into (fld : Field) (text : string) (frm : Form) : Form :=
  let i := get_input frm fld in
  if disabled i then frm
  else set_input frm fld (mkInput text (disabled i) (backgroundColor i)).

Definition select_target (key : string) (frm : Form) : Form :=
  updateInputStates
    (mkForm (principalInput frm) (rateInput frm) (timeInput frm) (frequencyInput frm)
       (amountInput frm) key).

(** The disabled flags agree with the selection, as [updateInputStates]
    leaves them. *)
Definition consistent (frm : Form) : bool :=
  forallb
    (fun fld => Bool.eqb (disabled (get_input frm fld))
                  (solveForSelect frm =? field_key fld)%string)
    field_order.

(** ** The controller *)

Definition msg_valid_principal : string := "Principal (P) must be a positive number.".
Definition msg_valid_rate : string := "Rate (R) must be a non-negative number.".
Definition msg_valid_time : string := "Time (T) must be a positive number.".
Definition msg_valid_frequency : string :=
  "Compounding Frequency (n) must be a positive integer.".
Definition msg_valid_amount : string := "Final Amount (A) must be a positive number.".
Definition msg_unexpected : string := "An unexpected error occurred during calculation.".

(** What [resultDiv.innerHTML] is set to: a paragraph of class [error], or a
    plain paragraph. *)
Inductive Html : Type :=
  | ErrorParagraph (text : string)
  | Paragraph (text : string).

(** A call of a solver, named by the field it solves for, with its four
    arguments in order. *)
Inductive Invocation : Type :=
  | Invoke (solver : Field) (a b c d : float).

(** The effect of one calculation request: the final [innerHTML] of the
    result element, and the solvers that were called. *)
Record Outcome : Type := mkOutcome {
  innerHTML : Html;
  invoked : list Invocation
}.

Definition toUpperCase_ascii (c : ascii) : ascii :=
  let n := nat_of_ascii c in
  if (97 <=? n)%nat && (n <=? 122)%nat then ascii_of_nat (n - 32) else c.

(** [s.charAt(0).toUpperCase() + s.slice(1)], on ASCII. *)
Definition capitalize (s : string) : string :=
  match s with
  | EmptyString => EmptyString
  | String c rest => String (toUpperCase_ascii c) rest
  end.

Section Controller.

Variable host : Host.

(** The solver behind each case of the [switch]. *)
Definition solver_of (fld : Field) : float -> float -> float -> float -> Result :=
  match fld with
  | amount => calculateFinalAmount host
  | principal => calculatePrincipal host
  | rate => calculateRate host
  | time => calculateTime host
  | frequency => calculateFrequency
  end.

(** The validation chain, lines 176 to 187. *)
Definition validationError (frm : Form) : string :=
  let P_val := parseFloat host (input_value (principalInput frm)) in
  let R_val := parseFloat host (input_value (rateInput frm)) in
  let T_val := parseFloat host (input_value (timeInput frm)) in
  let n_val := parseInt host (input_value (frequencyInput frm)) in
  let A_val := parseFloat host (input_value (amountInput frm)) in
  let solveForValue := solveForSelect frm in
  if negb (solveForValue =? "principal")%string && negb (disabled (principalInput frm))
     && (isNaN P_val || (P_val <=? 0)) then msg_valid_principal
  else if negb (solveForValue =? "rate")%string && negb (disabled (rateInput frm))
     && (isNaN R_val || (R_val <? 0)) then msg_valid_rate
  else if negb (solveForValue =? "time")%string && negb (disabled (timeInput frm))
     && (isNaN T_val || (T_val <=? 0)) then msg_valid_time
  else if negb (solveForValue =? "frequency")%string && negb (disabled (frequencyInput frm))
     && (isNaN n_val || (n_val <=? 0)) then msg_valid_frequency
  else if negb (solveForValue =? "amount")%string && negb (disabled (amountInput frm))
     && (isNaN A_val || (A_val <=? 0)) then msg_valid_amount
  else "".

(** The [switch] on the selection, with the call it makes. *)
Definition dispatch (solveForValue : string) (P_val R_val T_val n_val A_val : float)
  : Result * list Invocation :=
  if (solveForValue =? "amount")%string then
    (calculateFinalAmount host P_val R_val T_val n_val, [Invoke amount P_val R_val T_val n_val])
  else if (solveForValue =? "principal")%string then
    (calculatePrincipal host A_val R_val T_val n_val, [Invoke principal A_val R_val T_val n_val])
  else if (solveForValue =? "rate")%string then
    (calculateRate host A_val P_val T_val n_val, [Invoke rate A_val P_val T_val n_val])
  else if (solveForValue =? "time")%string then
    (calculateTime host A_val P_val R_val n_val, [Invoke time A_val P_val R_val n_val])
  else if (solveForValue =? "frequency")%string then
    (calculateFrequency A_val P_val R_val T_val, [Invoke frequency A_val P_val R_val T_val])
  else
    (error_result msg_invalid_selection, []).

(** The display of a numeric result, lines 220 to 238. *)
Definition render_value (solveForValue : string) (v : float) : Html :=
  let resultLabel := capitalize solveForValue in
  let resultValueDisplay := parseFloat host (toFixed host v 4) in
  let '(unit, resultValueDisplay) :=
    if (solveForValue =? "rate")%string then
      ("%", parseFloat host (toFixed host v 2))
    else if (solveForValue =? "time")%string then
      (" years", parseFloat host (toFixed host v 2))
    else if (solveForValue =? "principal")%string || (solveForValue =? "amount")%string then
      ("", parseFloat host (toFixed host v 2))
    else if (solveForValue =? "frequency")%string then
      ("", Math_round host v)
    else ("", resultValueDisplay) in
  Paragraph (resultLabel ++ ": " ++ Number_toString host resultValueDisplay ++ unit).

(** The text a template literal gives a property. *)
Definition text_of (p : option string) : string :=
  match p with
  | Some s => s
  | None => "undefined"
  end.

(** The display of a result, lines 215 to 241. *)
Definition render (solveForValue : string) (calculationResult : Result) : Html :=
  if truthy (error calculationResult) then
    ErrorParagraph (text_of (error calculationResult))
  else if truthy (message calculationResult) then
    Paragraph (text_of (message calculationResult))
  else
    match value calculationResult with
    | Some v => render_value solveForValue v
    | None => ErrorParagraph msg_unexpected
    end.

Definition performCalculation (frm : Form) : Outcome :=
  let P_val := parseFloat host (input_value (principalInput frm)) in
  let R_val := parseFloat host (input_value (rateInput frm)) in
  let T_val := parseFloat host (input_value (timeInput frm)) in
  let n_val := parseInt host (input_value (frequencyInput frm)) in
  let A_val := parseFloat host (input_value (amountInput frm)) in
  let solveForValue := solveForSelect frm in
  let validationError := validationError frm in
  if negb (validationError =? "")%string then
    mkOutcome (ErrorParagraph validationError) []
  else
    let '(calculationResult, calls) :=
      dispatch solveForValue P_val R_val T_val n_val A_val in
    mkOutcome (render solveForValue calculationResult) calls.

End Controller.

(** ** The validation rule, field by field *)

(** The number read from a field: [parseInt] for the frequency,
    [parseFloat] for the others. *)
Definition parsed (host : Host) (frm : Form) (fld : Field) : float :=
  match fld with
  | frequency => parseInt host (input_value (frequencyInput frm))
  | _ => parseFloat host (input_value (get_input frm fld))
  end.

(** The constraint of a field is violated: principal, time, frequency and
    amount must be positive numbers, the rate a non-negative one. *)
Definition violated (host : Host) (frm : Form) (fld : Field) : bool :=
  let v := parsed host frm fld in
  match fld with
  | rate => isNaN v || (v <? 0)
  | _ => isNaN v || (v <=? 0)
  end.

Definition is_target (frm : Form) (fld : Field) : bool :=
  (solveForSelect frm =? field_key fld)%string.

(** The first field, in [field_order], that is not the target and violates
    its constraint. *)
Definition first_violation (host : Host) (frm : Form) : option Field :=
  find (fun fld => negb (is_target frm fld) && violated host frm fld) field_order.

Definition validation_message (fld : Field) : string :=
  match fld with
  | principal => msg_valid_principal
  | rate => msg_valid_rate
  | time => msg_valid_time
  | frequency => msg_valid_frequency
  | amount => msg_valid_amount
  end.

(** ** What a solver can return *)

(** The error messages that occur in the five solvers. *)
Definition solver_errors : list string :=
  [msg_amount_guard; msg_principal_guard;
   msg_rate_guard; msg_rate_shrink; msg_rate_negative_ratio; msg_rate_invalid;
   msg_time_guard; msg_time_shrink; msg_time_zero_rate; msg_time_div_zero;
   msg_time_ratio; msg_time_log; msg_time_invalid].

(** The three shapes of object literal in the solvers' [return] statements. *)
Inductive solver_output : Field -> Result -> Prop :=
  | out_error fld m : In m solver_errors -> solver_output fld (error_result m)
  | out_message : solver_output frequency (message_result msg_frequency)
  | out_value fld v : solver_output fld (value_result v).

(** ** A host for running examples *)

(** Its functions are given on the few arguments the examples below use,
    and answer NaN (or the empty string) elsewhere. *)
Definition example_host : Host := {|
  Math_pow := fun b e => if e =? 1 then b else nan;
  Math_log := fun _ => nan;
  Math_round := fun x => x;
  parseFloat := fun s =>
    if (s =? "1000")%string then 1000
    else if (s =? "5")%string then 5
    else if (s =? "1")%string then 1
    else if (s =? "-5")%string then -5
    else nan;
  parseInt := fun s => if (s =? "12")%string then 12 else nan;
  toFixed := fun _ _ => "";
  Number_toString := fun _ => ""
|}.

(** A form as the page shows it first: the amount is the target. *)
Definition example_form : Form :=
  updateInputStates
    (mkForm (mkInput "-5" false "") (mkInput "5" false "") (mkInput "1" false "")
       (mkInput "12" false "") (mkInput "" false "") "amount").

(** ** The rate formula and classes of binary64 values *)

(** The rate R = 100 * n * ((A/P)^(1/(n*T)) - 1), with the operations in the
    order [calculateRate] performs them. *)
Definition rate_percent (host : Host) (A P T_years n_compound_freq : float) : float :=
  n_compound_freq
  * (Math_pow host (A / P) (1 / (n_compound_freq * T_years)) - 1) * 100.

(** Strictly positive, non-negative and NaN, on the specification side of
    a binary64 number. *)
Definition sf_pos (x : spec_float) : bool :=
  match x with
  | S754_finite false _ _ | S754_infinity false => true
  | _ => false
  end.

Definition sf_nonneg (x : spec_float) : bool :=
  match x with
  | S754_zero false | S754_finite false _ _ | S754_infinity false => true
  | _ => false
  end.

Definition sf_nan (x : spec_float) : bool :=
  match x with
  | S754_nan => true
  | _ => false
  end.

Definition pos_or_nan (x : spec_float) : bool := sf_pos x || sf_nan x.
Definition nonneg_or_nan (x : spec_float) : bool := sf_nonneg x || sf_nan x.

(** ** The round trip between amount and principal *)

(** The real number a finite binary64 number stands for (0 for the
    others). *)
Definition SF2R (x : spec_float) : R :=
  match x with
  | S754_finite s m e =>
      (if s then - IZR (Z.pos m) else IZR (Z.pos m)) * powerRZ 2 e
  | _ => 0%R
  end.

Definition F2R (x : float) : R := SF2R (Prim2SF x).

(** [x] is approximately [y]: both are finite and [x] is within 1e-9 of
    [y], relative to [y]. *)
Definition approx_rel (x y : float) : Prop :=
  isFinite x = true /\ isFinite y = true /\
  (Rabs (F2R x - F2R y) <= / 10 ^ 9 * Rabs (F2R y))%R.

(** The amount solver returns a value, the principal solver returns a value
    from it with the same rate, time and frequency, and that value is
    approximately the principal one started from. *)
Definition round_trip_ok (host : Host) (P R_annual T_years n_compound_freq : float) : Prop :=
  exists A P',
    calculateFinalAmount host P R_annual T_years n_compound_freq = value_result A /\
    calculatePrincipal host A R_annual T_years n_compound_freq = value_result P' /\
    approx_rel P' P.

(** ** Rounding to nearest *)

(** Where the real number [x] lies between the integers [m] and [m + 1],
    as a [location] tells it: at [m], below the middle, at the middle, or
    above it. *)
Definition inbetween (x : R) (m : Z) (l : location) : Prop :=
  match l with
  | loc_Exact => x = IZR m
  | loc_Inexact Lt => (IZR m < x < IZR m + / 2)%R
  | loc_Inexact Eq => x = (IZR m + / 2)%R
  | loc_Inexact Gt => (IZR m + / 2 < x < IZR m + 1)%R
  end.

(** The rounding to nearest, as a function of the mantissa [m1] it selects
    at the exponent [e']. *)
Definition rounded (sx : bool) (m1 e' : Z) : spec_float :=
  if (m1 =? 0)%Z then S754_zero sx
  else if (m1 =? 2 ^ 53)%Z then
    if (e' + 1 <=? 971)%Z then S754_finite sx 4503599627370496 (e' + 1) else S754_infinity sx
  else if (e' <=? 971)%Z then S754_finite sx (Z.to_pos m1) e' else S754_infinity sx.

(** ** The page and the dispatch, for the further properties *)

Definition field_eqb (f g : Field) : bool :=
  match f, g with
  | principal, principal | rate, rate | time, time
  | frequency, frequency | amount, amount => true
  | _, _ => false
  end.

(** The order in which the five quantities occur in the solvers' parameter
    lists: A, P, R, T, n. *)
Definition parameter_order : list Field := [amount; principal; rate; time; frequency].

(** The numbers read from the fields other than [target], in that order. *)
Definition arguments (host : Host) (frm : Form) (target : Field) : list float :=
  map (parsed host frm)
    (filter (fun fld => negb (field_eqb fld target)) parameter_order).

(** The display of a value, field by field: label, rounding and unit. *)
Definition result_label (fld : Field) : string :=
  match fld with
  | principal => "Principal"
  | rate => "Rate"
  | time => "Time"
  | frequency => "Frequency"
  | amount => "Amount"
  end.

Definition unit_suffix (fld : Field) : string :=
  match fld with
  | rate => "%"
  | time => " years"
  | _ => ""
  end.

Definition display_value (host : Host) (fld : Field) (v : float) : float :=
  match fld with
  | frequency => Math_round host v
  | _ => parseFloat host (toFixed host v 2)
  end.

(** The error of each solver's first guard. *)
Definition positivity_error (fld : Field) : option string :=
  match fld with
  | amount => Some msg_amount_guard
  | principal => Some msg_principal_guard
  | rate => Some msg_rate_guard
  | time => Some msg_time_guard
  | frequency => None
  end.

(** *** Calls that throw, and the listeners *)

(** How a call ends: it returns, or it throws a TypeError. *)
Inductive Completion : Type :=
  | Returned
  | TypeError.

(** An event on the loaded page: the user types into a field, or picks an
    option of the select. *)
Inductive Event : Type :=
  | Typed (fld : Field) (text : string)
  | Selected (key : string).

(** The page: the form, and whether the handler of [DOMContentLoaded] got
    as far as registering its listeners (lines 152 and 244). *)
Record Page : Type := mkPage {
  page_form : Form;
  listening : bool
}.

(** Picking an option changes the select's value and nothing else. *)
Definition choose (key : string) (frm : Form) : Form :=
  mkForm (principalInput frm) (rateInput frm) (timeInput frm) (frequencyInput frm)
    (amountInput frm) key.

Section Page.

(** [inputs] is an object literal: [inputs[key]] also finds the properties
    it inherits from [Object.prototype] ("constructor", "toString",
    "__proto__" and the like), which are functions or objects, so truthy,
    and have no [style].  [inherited key] tells whether [key], not an own
    key, names such a property. *)
Variable inherited : string -> bool.

(** Lines 142 to 146.  Under an own key the three assignments go to the
    field.  Under an inherited key the test of line 142 passes as well,
    lines 143 and 144 write to the inherited object, and line 145 reads
    [backgroundColor] of an undefined [style]: a TypeError.  Under any other
    key the lookup is undefined and the branch is skipped. *)
Definition updateInputStates_completion (frm : Form) : Completion :=
  match inputs (solveForSelect frm) with
  | Some _ => Returned
  | None => if inherited (solveForSelect frm) then TypeError else Returned
  end.

(** The handler of [DOMContentLoaded]: the call of line 150; the listeners
    of lines 152 and 244; the call of line 258.  A TypeError at line 150
    ends the handler before any listener is registered. *)
Definition onDOMContentLoaded (frm : Form) : Page :=
  let frm1 := updateInputStates frm in
  match updateInputStates_completion frm with
  | TypeError => mkPage frm1 false
  | Returned => mkPage (updateInputStates frm1) true
  end.

(** Typing goes to the field.  Picking an option sets the select, and runs
    [updateInputStates] when the [change] listener is there; a TypeError in
    the listener leaves the form as the call left it. *)
Definition step (pg : Page) (ev : Event) : Page :=
  match ev with
  | Typed fld text => mkPage (type_into fld text (page_form pg)) (listening pg)
  | Selected key =>
      if listening pg then mkPage (updateInputStates (choose key (page_form pg))) true
      else mkPage (choose key (page_form pg)) false
  end.

Definition run (events : list Event) (frm : Form) : Page :=
  fold_left step events (onDOMContentLoaded frm).

End Page.

(** The names [Object.prototype] gives every object in a usual engine. *)
Definition Object_prototype_keys : list string :=
  ["constructor"; "__proto__"; "hasOwnProperty"; "isPrototypeOf";
   "propertyIsEnumerable"; "toLocaleString"; "toString"; "valueOf";
   "__defineGetter__"; "__defineSetter__"; "__lookupGetter__"; "__lookupSetter__"].

Definition usual_inherited (key : string) : bool :=
  existsb (String.eqb key) Object_prototype_keys.

(** The target's field is empty. *)
Definition target_cleared (frm : Form) : Prop :=
  forall fld, is_target frm fld = true -> input_value (get_input frm fld) = "".

(** No field is disabled. *)
Definition all_enabled (frm : Form) : Prop :=
  forall fld, disabled (get_input frm fld) = false.

(** A shift record with no bit shifted out. *)
Definition exact_record (m : Z) : shr_record := Build_shr_record m false false.

(** Further examples: a host that also reads the texts 0 and 1200, a form
    with four valid fields, one that solves for the time at rate 0, and one
    whose selection is empty. *)
Definition table_host : Host := {|
  Math_pow := Math_pow example_host;
  Math_log := Math_log example_host;
  Math_round := Math_round example_host;
  parseFloat := fun s =>
    if (s =? "0")%string then 0
    else if (s =? "1200")%string then 1200
    else parseFloat example_host s;
  parseInt := parseInt example_host;
  toFixed := toFixed example_host;
  Number_toString := Number_toString example_host
|}.

Definition valid_form : Form :=
  updateInputStates
    (mkForm (mkInput "1000" false "") (mkInput "5" false "") (mkInput "1" false "")
       (mkInput "12" false "") (mkInput "" false "") "amount").

Definition zero_rate_form : Form :=
  updateInputStates
    (mkForm (mkInput "1000" false "") (mkInput "0" false "") (mkInput "" false "")
       (mkInput "12" false "") (mkInput "1200" false "") "time").

Definition unselected_form : Form :=
  updateInputStates
    (mkForm (mkInput "1000" false "") (mkInput "5" false "") (mkInput "1" false "")
       (mkInput "12" false "") (mkInput "1000" false "") "").

(** ** Facts on the comparisons of binary64 numbers *)

Module FloatFacts.

Lemma SFcompare_antisym (x y : spec_float) :
  SFcompare y x = option_map CompOpp (SFcompare x y).
Proof.
  destruct x as [sx|sx| |sx mx ex], y as [sy|sy| |sy my ey]; simpl;
    try reflexivity;
    try (destruct sx; reflexivity);
    try (destruct sy; reflexivity);
    try (destruct sx, sy; reflexivity).
  destruct sx, sy; simpl; try reflexivity;
    rewrite (Z.compare_antisym ex ey);
    destruct (ex ?= ey)%Z; simpl; try reflexivity;
    change PosDef.Pos.compare_cont with Pos.compare_cont;
    rewrite (Pos.compare_cont_antisym mx my Eq); reflexivity.
Qed.

(** [x < y] excludes [y <= x]. *)
Lemma ltb_true_leb_false (x y : float) :
  (x <? y) = true -> (y <=? x) = false.
Proof.
  rewrite ltb_spec, leb_spec. unfold SFltb, SFleb.
  rewrite (SFcompare_antisym (Prim2SF x) (Prim2SF y)).
  destruct (SFcompare (Prim2SF x) (Prim2SF y)) as [[ | | ]|];
    simpl; congruence.
Qed.

(** [x === y] excludes [x < y]. *)
Lemma eqb_true_ltb_false (x y : float) :
  (x =? y) = true -> (x <? y) = false.
Proof.
  rewrite eqb_spec, ltb_spec. unfold SFeqb, SFltb.
  destruct (SFcompare (Prim2SF x) (Prim2SF y)) as [[ | | ]|];
    simpl; congruence.
Qed.

(** [x === y] gives [x <= y]. *)
Lemma eqb_true_leb_true (x y : float) :
  (x =? y) = true -> (x <=? y) = true.
Proof.
  rewrite eqb_spec, leb_spec. unfold SFeqb, SFleb.
  destruct (SFcompare (Prim2SF x) (Prim2SF y)) as [[ | | ]|];
    simpl; congruence.
Qed.

(** [x <= y] excludes [y < x]. *)
Lemma leb_true_ltb_false (x y : float) :
  (x <=? y) = true -> (y <? x) = false.
Proof.
  rewrite ltb_spec, leb_spec. unfold SFltb, SFleb.
  rewrite (SFcompare_antisym (Prim2SF x) (Prim2SF y)).
  destruct (SFcompare (Prim2SF x) (Prim2SF y)) as [[ | | ]|];
    simpl; congruence.
Qed.

End FloatFacts.

(** ** Facts on rounding to binary64 *)

Module Rounding.

Local Open Scope Z_scope.

Lemma Zdigits2_nonneg z : 0 <= Zdigits2 z.
Proof. destruct z; cbn; lia. Qed.

Lemma Zdigits2_pos z : 0 < z -> 0 < Zdigits2 z.
Proof. destruct z; cbn; lia. Qed.

Lemma digits2_pos_size p : digits2_pos p = Pos.size p.
Proof. induction p; cbn; congruence. Qed.

(** A positive mantissa of [d] binary digits lies in [2^(d-1), 2^d). *)
Lemma Zdigits2_bounds p :
  2 ^ (Zdigits2 (Zpos p) - 1) <= Zpos p < 2 ^ Zdigits2 (Zpos p).
Proof.
  cbn [Zdigits2]. rewrite digits2_pos_size.
  pose proof (Pos.size_gt p) as Hgt. pose proof (Pos.size_le p) as Hle.
  apply Pos2Z.pos_lt_pos in Hgt. apply Pos2Z.pos_le_pos in Hle.
  rewrite Pos2Z.inj_pow in Hgt, Hle.
  replace (Z.pos (Pos.size p)) with (Z.succ (Z.pos (Pos.size p) - 1)) in Hle by lia.
  rewrite Z.pow_succ_r in Hle by lia.
  rewrite (Pos2Z.inj_xO p) in Hle. lia.
Qed.

Lemma shr_1_digits s :
  0 <= shr_m s ->
  0 <= shr_m (shr_1 s) /\
  Zdigits2 (shr_m (shr_1 s)) = Z.max 0 (Zdigits2 (shr_m s) - 1).
Proof.
  destruct s as [m r t]. cbn [shr_m]. intros Hm.
  destruct m as [|p|p]; [ | | lia ].
  - cbn. lia.
  - destruct p; cbn [shr_1 shr_m Zdigits2 digits2_pos];
      rewrite ?Pos2Z.inj_succ; lia.
Qed.

Lemma iter_shr_1_digits p : forall s,
  0 <= shr_m s ->
  0 <= shr_m (SpecFloat.iter_pos shr_1 p s) /\
  Zdigits2 (shr_m (SpecFloat.iter_pos shr_1 p s)) = Z.max 0 (Zdigits2 (shr_m s) - Zpos p).
Proof.
  induction p as [p IH|p IH|]; intros s Hs; cbn [SpecFloat.iter_pos].
  - destruct (shr_1_digits s Hs) as [H0 E0].
    destruct (IH _ H0) as [H1 E1]. destruct (IH _ H1) as [H2 E2].
    split; [exact H2|]. rewrite E2, E1, E0, Pos2Z.inj_xI. lia.
  - destruct (IH _ Hs) as [H1 E1]. destruct (IH _ H1) as [H2 E2].
    split; [exact H2|]. rewrite E2, E1, Pos2Z.inj_xO. lia.
  - apply shr_1_digits; assumption.
Qed.

Lemma shr_record_of_loc_m m l : shr_m (shr_record_of_loc m l) = m.
Proof. destruct l as [|[]]; reflexivity. Qed.

(** A right shift to the format's exponent keeps a mantissa above the
    underflow threshold positive, and keeps its magnitude [digits + e]. *)
Lemma shr_fexp_digits m e l :
  0 < m -> emin < Zdigits2 m + e ->
  0 < shr_m (fst (shr_fexp prec emax m e l)) /\
  Zdigits2 (shr_m (fst (shr_fexp prec emax m e l))) + snd (shr_fexp prec emax m e l)
    = Zdigits2 m + e.
Proof.
  intros Hm He. unfold shr_fexp, shr, fexp, SpecFloat.emin, prec, emax in *.
  destruct (Z.max (Zdigits2 m + e - 53) (3 - 1024 - 53) - e) as [|n|n] eqn:En;
    cbn [fst snd]; rewrite ?shr_record_of_loc_m; try (split; lia).
  destruct (iter_shr_1_digits n (shr_record_of_loc m l)) as [H0 E0].
  { rewrite shr_record_of_loc_m. lia. }
  rewrite shr_record_of_loc_m in E0.
  assert (Hd : 0 < Zdigits2 (shr_m (SpecFloat.iter_pos shr_1 n (shr_record_of_loc m l)))) by lia.
  split; [|lia].
  destruct (Z.eq_dec (shr_m (SpecFloat.iter_pos shr_1 n (shr_record_of_loc m l))) 0) as [E|E]; [|lia].
  rewrite E in Hd. cbn in Hd. lia.
Qed.

Lemma digits2_pos_succ p : (digits2_pos p <= digits2_pos (Pos.succ p))%positive.
Proof. induction p; cbn [Pos.succ digits2_pos]; lia. Qed.

Lemma round_nearest_even_digits m l :
  0 < m ->
  0 < round_nearest_even m l /\ Zdigits2 m <= Zdigits2 (round_nearest_even m l).
Proof.
  intros Hm. destruct m as [|p|p]; try lia.
  assert (H1 : 0 < Z.pos p + 1 /\ Zdigits2 (Z.pos p) <= Zdigits2 (Z.pos p + 1)).
  { replace (Z.pos p + 1) with (Z.pos (Pos.succ p)) by lia. cbn [Zdigits2].
    pose proof (digits2_pos_succ p). lia. }
  unfold round_nearest_even.
  destruct l as [|[]]; try destruct (Z.even (Z.pos p)); try (split; lia); exact H1.
Qed.

(** Rounding a positive mantissa above the underflow threshold gives a
    non-zero number of the requested sign (or an infinity). *)
Lemma binary_round_aux_nonzero sx m e l :
  0 < m -> emin < Zdigits2 m + e ->
  exists r, binary_round_aux prec emax sx m e l = r /\
    match r with
    | S754_finite s _ _ | S754_infinity s => s = sx
    | _ => False
    end.
Proof.
  intros Hm He. unfold binary_round_aux.
  destruct (shr_fexp_digits m e l Hm He) as [H1 E1].
  destruct (shr_fexp prec emax m e l) as [mrs' e'] eqn:S1. cbn [fst snd] in *.
  destruct (round_nearest_even_digits (shr_m mrs') (loc_of_shr_record mrs') H1) as [H2 E2].
  set (m1 := round_nearest_even (shr_m mrs') (loc_of_shr_record mrs')) in *.
  assert (He1 : emin < Zdigits2 m1 + e') by lia.
  destruct (shr_fexp_digits m1 e' loc_Exact H2 He1) as [H3 _].
  destruct (shr_fexp prec emax m1 e' loc_Exact) as [mrs'' e''] eqn:S2. cbn [fst snd] in *.
  destruct (shr_m mrs'') as [|q|q]; try lia.
  destruct (e'' <=? emax - prec); eexists; split; reflexivity.
Qed.

(** Rounding never changes the sign. *)
Lemma binary_round_aux_sign sx m e l :
  match binary_round_aux prec emax sx m e l with
  | S754_zero s | S754_finite s _ _ | S754_infinity s => s = sx
  | S754_nan => True
  end.
Proof.
  unfold binary_round_aux.
  destruct (shr_fexp prec emax m e l) as [mrs' e'].
  destruct (shr_fexp prec emax _ e' loc_Exact) as [mrs'' e''].
  destruct (shr_m mrs''); [reflexivity | | exact I].
  destruct (e'' <=? emax - prec); reflexivity.
Qed.

Lemma pos_nonneg_or_nan x : pos_or_nan x = true -> nonneg_or_nan x = true.
Proof. destruct x as [[]|[]| |[] m e]; cbn; congruence. Qed.

Lemma Prim2SF_zero : Prim2SF 0%float = S754_zero false.
Proof. reflexivity. Qed.

Lemma Prim2SF_one : Prim2SF 1%float = S754_finite false 4503599627370496 (-52).
Proof. reflexivity. Qed.

Lemma Prim2SF_hundred : Prim2SF 100%float = S754_finite false 7036874417766400 (-46).
Proof. vm_compute. reflexivity. Qed.

(** not (x <= 0): x is positive or NaN *)
Lemma leb_zero_false (x : float) :
  (x <=? 0)%float = false -> pos_or_nan (Prim2SF x) = true.
Proof.
  rewrite leb_spec, Prim2SF_zero. unfold SFleb.
  destruct (Prim2SF x) as [[]|[]| |[] m e]; cbn; congruence.
Qed.

Lemma pos_or_nan_leb_zero (x : float) :
  pos_or_nan (Prim2SF x) = true -> (x <=? 0)%float = false.
Proof.
  rewrite leb_spec, Prim2SF_zero. unfold SFleb.
  destruct (Prim2SF x) as [[]|[]| |[] m e]; cbn; congruence.
Qed.

Lemma nonneg_or_nan_ltb_zero (x : float) :
  nonneg_or_nan (Prim2SF x) = true -> (x <? 0)%float = false.
Proof.
  rewrite ltb_spec, Prim2SF_zero. unfold SFltb.
  destruct (Prim2SF x) as [[]|[]| |[] m e]; cbn; congruence.
Qed.

(** The quotient of a non-negative number by a positive one is not negative. *)
Lemma SFdiv_nonneg x y :
  nonneg_or_nan x = true -> pos_or_nan y = true ->
  nonneg_or_nan (SF64div x y) = true.
Proof.
  destruct x as [[]|[]| |[] mx ex], y as [[]|[]| |[] my ey]; cbn; try congruence.
  intros _ _.
  destruct (SFdiv_core_binary prec emax (Z.pos mx) ex (Z.pos my) ey) as [[mz ez] lz].
  pose proof (binary_round_aux_sign false mz ez lz) as Hs.
  destruct (binary_round_aux prec emax false mz ez lz) as [s|s| |s m e];
    try subst s; reflexivity.
Qed.

Lemma valid_finite_bounds s m e :
  valid_binary (S754_finite s m e) = true ->
  emin <= e /\ Zdigits2 (Zpos m) <= 53 /\ (emin < e -> Zdigits2 (Zpos m) = 53).
Proof.
  cbn [SpecFloat.valid_binary]. unfold SpecFloat.bounded, SpecFloat.canonical_mantissa, SpecFloat.fexp.
  rewrite andb_true_iff, Z.eqb_eq. cbn [Zdigits2]. unfold SpecFloat.emin, prec, emax.
  lia.
Qed.

Lemma shl_align_snd mx ex ex' :
  emin <= ex -> emin <= ex' -> emin <= snd (shl_align mx ex ex').
Proof.
  intros H1 H2. unfold shl_align. destruct (ex' - ex); cbn [snd]; assumption.
Qed.

(** Adding a non-negative number to 1 gives a positive number (or NaN). *)
Lemma SFadd_one_pos y :
  valid_binary y = true -> nonneg_or_nan y = true ->
  pos_or_nan (SF64add (Prim2SF 1%float) y) = true.
Proof.
  rewrite Prim2SF_one. intros Hv Hy.
  destruct y as [[]|[]| |[] my ey]; try discriminate; try reflexivity.
  destruct (valid_finite_bounds _ _ _ Hv) as (He & _ & _).
  unfold SF64add, SFadd, cond_Zopp, binary_normalize.
  set (ez := Z.min (-52) ey).
  change (Z.pos ?a + Z.pos ?b) with (Z.pos (a + b)). cbv beta iota.
  unfold binary_round.
  set (mx := (fst (shl_align 4503599627370496 (-52) ez) + fst (shl_align my ey ez))%positive).
  assert (Hez : emin <= ez) by (unfold ez, SpecFloat.emin, prec, emax in *; lia).
  assert (Hf : emin <= fexp prec emax (Z.pos (digits2_pos mx) + ez))
    by (unfold fexp, SpecFloat.emin; lia).
  pose proof (shl_align_snd mx ez _ Hez Hf) as Hs.
  destruct (shl_align mx ez (fexp prec emax (Z.pos (digits2_pos mx) + ez))) as [mz ez'].
  cbn [snd] in Hs.
  destruct (binary_round_aux_nonzero false (Z.pos mz) ez' loc_Exact) as (r & -> & Hr).
  - lia.
  - pose proof (Zdigits2_pos (Z.pos mz)). lia.
  - destruct r as [s|s| |s m e]; try contradiction; subst s; reflexivity.
Qed.

Lemma Zdigits2_le_of_lt p q :
  Z.pos p <= Z.pos q -> Zdigits2 (Z.pos p) <= Zdigits2 (Z.pos q).
Proof.
  intros H. pose proof (Zdigits2_bounds p) as [Hp _].
  pose proof (Zdigits2_bounds q) as [_ Hq].
  assert (Hlt : 2 ^ (Zdigits2 (Z.pos p) - 1) < 2 ^ Zdigits2 (Z.pos q)) by lia.
  apply Z.pow_lt_mono_r_iff in Hlt; [lia | lia | apply Zdigits2_nonneg].
Qed.

(** The core of the division: for a dividend whose magnitude is at least
    the divisor's, the quotient's mantissa is positive and its exponent is
    far above the underflow threshold. *)
Lemma SFdiv_core_binary_pos m1 e1 m2 e2 :
  Zdigits2 (Z.pos m1) <= 53 ->
  Zdigits2 (Z.pos m2) + e2 <= Zdigits2 (Z.pos m1) + e1 ->
  let '(q, e', _) := SFdiv_core_binary prec emax (Z.pos m1) e1 (Z.pos m2) e2 in
  0 < q /\ -53 <= e'.
Proof.
  intros Hd1 Hk. unfold SFdiv_core_binary.
  pose proof (Zdigits2_bounds m1) as [Hm1 _].
  pose proof (Zdigits2_bounds m2) as [_ Hm2].
  assert (Hd2 : 0 < Zdigits2 (Z.pos m2)) by (apply Zdigits2_pos; lia).
  assert (Hd0 : 0 < Zdigits2 (Z.pos m1)) by (apply Zdigits2_pos; lia).
  generalize dependent (Zdigits2 (Z.pos m1)). intros d1 Hd1 Hk Hm1 Hd0.
  generalize dependent (Zdigits2 (Z.pos m2)). intros d2 Hk Hm2 Hd2.
  assert (Hf : fexp prec emax (d1 + e1 - (d2 + e2)) = d1 + e1 - (d2 + e2) - 53)
    by (unfold fexp, SpecFloat.emin, prec, emax; lia).
  rewrite Hf.
  assert (He : -53 <= Z.min (d1 + e1 - (d2 + e2) - 53) (e1 - e2)) by lia.
  assert (Hs : e1 - e2 - Z.min (d1 + e1 - (d2 + e2) - 53) (e1 - e2) = 53 - d1 + d2) by lia.
  rewrite Hs.
  destruct (53 - d1 + d2) as [|s|s] eqn:Es; try lia.
  rewrite Z.shiftl_mul_pow2 by lia.
  destruct (Z.div_eucl (Z.pos m1 * 2 ^ Z.pos s) (Z.pos m2)) as [q r] eqn:Ed.
  assert (Hq : q = Z.pos m1 * 2 ^ Z.pos s / Z.pos m2) by (unfold Z.div; now rewrite Ed).
  split; [|exact He].
  rewrite Hq. apply Z.div_str_pos. split; [lia|].
  assert (Hp : 2 ^ d2 <= 2 ^ (d1 - 1) * 2 ^ Z.pos s).
  { rewrite <- Z.pow_add_r by lia. apply Z.pow_le_mono_r; lia. }
  assert (Hm : 2 ^ (d1 - 1) * 2 ^ Z.pos s <= Z.pos m1 * 2 ^ Z.pos s).
  { apply Z.mul_le_mono_nonneg_r; [apply Z.pow_nonneg; lia | exact Hm1]. }
  lia.
Qed.

(** After x > y on valid positive numbers, magnitudes are ordered. *)
Lemma SFcompare_Gt_magnitude m1 e1 m2 e2 :
  valid_binary (S754_finite false m1 e1) = true ->
  valid_binary (S754_finite false m2 e2) = true ->
  SFcompare (S754_finite false m1 e1) (S754_finite false m2 e2) = Some Gt ->
  Zdigits2 (Z.pos m2) + e2 <= Zdigits2 (Z.pos m1) + e1.
Proof.
  intros V1 V2. destruct (valid_finite_bounds _ _ _ V1) as (A1 & B1 & C1).
  destruct (valid_finite_bounds _ _ _ V2) as (A2 & B2 & C2).
  cbn [SFcompare]. destruct (Z.compare_spec e1 e2) as [E|E|E]; intros H.
  - subst e2. injection H as H. change (PosDef.Pos.compare_cont Eq m1 m2) with (Pos.compare m1 m2) in H.
    apply Pos.compare_gt_iff in H.
    assert (Zdigits2 (Z.pos m2) <= Zdigits2 (Z.pos m1)) by (apply Zdigits2_le_of_lt; lia).
    lia.
  - discriminate.
  - rewrite C1 by lia. lia.
Qed.

(** The quotient of a positive number by a smaller positive one is positive. *)
Lemma SFdiv_gt_pos x y :
  valid_binary x = true -> valid_binary y = true ->
  pos_or_nan x = true -> pos_or_nan y = true ->
  SFltb x y = false -> SFeqb x y = false ->
  pos_or_nan (SF64div x y) = true.
Proof.
  intros Vx Vy Px Py Hlt Heq.
  assert (Hc : SFcompare x y = Some Gt \/ SFcompare x y = None).
  { unfold SFltb, SFeqb in *.
    destruct (SFcompare x y) as [[ | | ]|]; try discriminate; auto. }
  clear Hlt Heq.
  destruct x as [[]|[]| |[] mx ex], y as [[]|[]| |[] my ey];
    try discriminate; try reflexivity;
    try (cbn in Hc; destruct Hc; discriminate).
  destruct Hc as [Hc|Hc]; [|cbn in Hc; discriminate].
  pose proof (SFcompare_Gt_magnitude mx ex my ey Vx Vy Hc) as Hk.
  destruct (valid_finite_bounds _ _ _ Vx) as (_ & Hd & _).
  pose proof (SFdiv_core_binary_pos mx ex my ey Hd Hk) as Hq.
  unfold SF64div, SFdiv.
  destruct (SFdiv_core_binary prec emax (Z.pos mx) ex (Z.pos my) ey) as [[mz ez] lz].
  destruct Hq as [Hq He].
  destruct (binary_round_aux_nonzero (xorb false false) mz ez lz) as (r & -> & Hr).
  - exact Hq.
  - pose proof (Zdigits2_pos mz Hq). unfold SpecFloat.emin, prec, emax. lia.
  - destruct r as [s|s| |s m e]; try contradiction; subst s; reflexivity.
Qed.

End Rounding.

(** ** Rounding to nearest: the product and the quotient *)

Module RoundingError.

Import Rounding.
Local Open Scope R_scope.

Lemma IZR_pow2 (k : Z) : (0 <= k)%Z -> IZR (2 ^ k) = powerRZ 2 k.
Proof.
  intros Hk. destruct k as [|p|p]; [reflexivity | | lia].
  cbn [powerRZ]. rewrite pow_IZR, positive_nat_Z. reflexivity.
Qed.

Lemma Rabs_le_bounds (a b : R) : Rabs a <= b -> - b <= a <= b.
Proof. unfold Rabs. destruct (Rcase_abs a); lra. Qed.

Lemma bpow_pos (e : Z) : 0 < powerRZ 2 e.
Proof. apply powerRZ_lt. lra. Qed.

Lemma bpow_add (a b : Z) : powerRZ 2 (a + b) = powerRZ 2 a * powerRZ 2 b.
Proof. apply powerRZ_add. lra. Qed.

(** Shifting one bit out halves the number a record brackets, and the two
    bits kept tell where the half lies. *)
Lemma shr_1_inbetween (s : shr_record) (x : R) :
  (0 <= shr_m s)%Z ->
  inbetween x (shr_m s) (loc_of_shr_record s) ->
  inbetween (x / 2) (shr_m (shr_1 s)) (loc_of_shr_record (shr_1 s)).
Proof.
  destruct s as [m r t]. cbn [shr_m]. intros Hm.
  destruct m as [|p|p]; [ | | lia].
  - destruct r, t; cbn; intros; lra.
  - destruct p; destruct r, t;
      cbn [shr_1 shr_m loc_of_shr_record inbetween shr_r shr_s orb];
      rewrite ?(Pos2Z.inj_xI p), ?(Pos2Z.inj_xO p), ?plus_IZR, ?mult_IZR; intros; lra.
Qed.

Lemma iter_shr_1_inbetween p : forall (s : shr_record) (x : R),
  (0 <= shr_m s)%Z ->
  inbetween x (shr_m s) (loc_of_shr_record s) ->
  inbetween (x / IZR (2 ^ Z.pos p))
    (shr_m (SpecFloat.iter_pos shr_1 p s))
    (loc_of_shr_record (SpecFloat.iter_pos shr_1 p s)).
Proof.
  induction p as [p IH|p IH|]; intros s x Hs Hx; cbn [SpecFloat.iter_pos].
  - destruct (shr_1_digits s Hs) as [H0 _].
    destruct (iter_shr_1_digits p _ H0) as [H1 _].
    pose proof (IH _ _ H1 (IH _ _ H0 (shr_1_inbetween s x Hs Hx))) as H.
    replace (x / IZR (2 ^ Z.pos p~1)) with (x / 2 / IZR (2 ^ Z.pos p) / IZR (2 ^ Z.pos p));
      [exact H|].
    rewrite (Pos2Z.inj_xI p).
    replace (2 * Z.pos p + 1)%Z with (1 + Z.pos p + Z.pos p)%Z by lia.
    rewrite !Z.pow_add_r, !mult_IZR by lia.
    assert (0 < IZR (2 ^ Z.pos p)) by (apply IZR_lt, Z.pow_pos_nonneg; lia).
    change (IZR (2 ^ 1)) with 2. field. lra.
  - destruct (iter_shr_1_digits p _ Hs) as [H1 _].
    pose proof (IH _ _ H1 (IH _ _ Hs Hx)) as H.
    replace (x / IZR (2 ^ Z.pos p~0)) with (x / IZR (2 ^ Z.pos p) / IZR (2 ^ Z.pos p));
      [exact H|].
    rewrite (Pos2Z.inj_xO p).
    replace (2 * Z.pos p)%Z with (Z.pos p + Z.pos p)%Z by lia.
    rewrite !Z.pow_add_r, !mult_IZR by lia.
    assert (0 < IZR (2 ^ Z.pos p)) by (apply IZR_lt, Z.pow_pos_nonneg; lia).
    field. lra.
  - change (IZR (2 ^ 1)) with 2. apply shr_1_inbetween; assumption.
Qed.

Lemma loc_of_shr_record_of_loc m l : loc_of_shr_record (shr_record_of_loc m l) = l.
Proof. destruct l as [|[]]; reflexivity. Qed.

(** The first shift of the rounding. *)
Lemma shr_fexp_inbetween m e l (x : R) :
  (0 <= m)%Z -> inbetween x m l ->
  let e' := Z.max e (SpecFloat.fexp prec emax (Zdigits2 m + e)) in
  let r := shr_fexp prec emax m e l in
  snd r = e' /\
  (0 <= shr_m (fst r))%Z /\
  (Zdigits2 (shr_m (fst r)) <= 53)%Z /\
  inbetween (x / IZR (2 ^ (e' - e))) (shr_m (fst r)) (loc_of_shr_record (fst r)).
Proof.
  intros Hm Hx. cbv zeta. unfold shr_fexp, shr.
  pose proof (Zdigits2_nonneg m) as Hd.
  destruct (SpecFloat.fexp prec emax (Zdigits2 m + e) - e)%Z as [|n|n] eqn:En;
    cbn [fst snd]; unfold SpecFloat.fexp, SpecFloat.emin, prec, emax in *.
  - rewrite shr_record_of_loc_m, loc_of_shr_record_of_loc.
    replace (Z.max e (Z.max (Zdigits2 m + e - 53) (3 - 1024 - 53)) - e)%Z with 0%Z by lia.
    change (IZR (2 ^ 0)) with 1. replace (x / 1) with x by field.
    repeat split; try lia. exact Hx.
  - destruct (iter_shr_1_digits n (shr_record_of_loc m l)) as [H0 E0].
    { rewrite shr_record_of_loc_m. lia. }
    rewrite shr_record_of_loc_m in E0.
    replace (Z.max e (Z.max (Zdigits2 m + e - 53) (3 - 1024 - 53)) - e)%Z with (Z.pos n) by lia.
    repeat split; try lia.
    apply iter_shr_1_inbetween.
    + rewrite shr_record_of_loc_m. lia.
    + rewrite shr_record_of_loc_m, loc_of_shr_record_of_loc. exact Hx.
  - rewrite shr_record_of_loc_m, loc_of_shr_record_of_loc.
    replace (Z.max e (Z.max (Zdigits2 m + e - 53) (3 - 1024 - 53)) - e)%Z with 0%Z by lia.
    change (IZR (2 ^ 0)) with 1. replace (x / 1) with x by field.
    repeat split; try lia. exact Hx.
Qed.

(** Rounding to nearest even selects an integer at most 1/2 away. *)
Lemma round_nearest_even_inbetween m l (x : R) :
  inbetween x m l ->
  Rabs (IZR (round_nearest_even m l) - x) <= / 2 /\
  (m <= round_nearest_even m l <= m + 1)%Z.
Proof.
  unfold round_nearest_even, inbetween.
  destruct l as [|[]]; try destruct (Z.even m); intros Hx;
    (split; [apply Rabs_le; rewrite ?plus_IZR; lra | lia]).
Qed.

Lemma Zdigits2_lt_pow2 z : (0 <= z < 2 ^ 53)%Z -> (Zdigits2 z <= 53)%Z.
Proof.
  intros [H0 H1]. destruct z as [|p|p]; [cbn; lia | | lia].
  pose proof (Zdigits2_bounds p) as [Hlo _].
  destruct (Z_le_gt_dec (Zdigits2 (Z.pos p)) 53) as [H|H]; [exact H|].
  assert (2 ^ 53 <= 2 ^ (Zdigits2 (Z.pos p) - 1))%Z by (apply Z.pow_le_mono_r; lia).
  lia.
Qed.

Lemma Zdigits2_le_53 z : (0 <= z)%Z -> (Zdigits2 z <= 53)%Z -> (z < 2 ^ 53)%Z.
Proof.
  intros H0 Hd. destruct z as [|p|p]; [lia | | lia].
  pose proof (Zdigits2_bounds p) as [_ Hhi].
  assert (2 ^ Zdigits2 (Z.pos p) <= 2 ^ 53)%Z by (apply Z.pow_le_mono_r; lia).
  lia.
Qed.

(** The second shift of the rounding, which follows a carry. *)
Lemma shr_fexp_carry m1 e' :
  (0 <= m1 <= 2 ^ 53)%Z -> (-1074 <= e')%Z ->
  shr_fexp prec emax m1 e' loc_Exact =
    if (m1 =? 2 ^ 53)%Z then (Build_shr_record (2 ^ 52) false false, (e' + 1)%Z)
    else (Build_shr_record m1 false false, e').
Proof.
  intros Hm He. destruct (Z.eqb_spec m1 (2 ^ 53)) as [->|Hne].
  - unfold shr_fexp. 
    change (Zdigits2 (2 ^ 53)) with 54%Z.
    unfold SpecFloat.fexp, SpecFloat.emin, prec, emax.
    replace (Z.max (54 + e' - 53) (3 - 1024 - 53) - e')%Z with 1%Z by lia.
    reflexivity.
  - assert (Hd : (Zdigits2 m1 <= 53)%Z) by (apply Zdigits2_lt_pow2; lia).
    unfold shr_fexp, shr, SpecFloat.fexp, SpecFloat.emin, prec, emax.
    destruct (Z.max (Zdigits2 m1 + e' - 53) (3 - 1024 - 53) - e')%Z as [|n|n] eqn:En;
      try reflexivity.
    lia.
Qed.

(** The rounding of [x * 2^e], with [x] between [m] and [m + 1] as [l]
    tells: the result is [rounded sx m1 e'] for a mantissa [m1] at most
    half a unit of 2^e' away from it. *)
Lemma binary_round_aux_nearest sx m e l (x : R) :
  (0 <= m)%Z -> inbetween x m l ->
  let e' := Z.max e (SpecFloat.fexp prec emax (Zdigits2 m + e)) in
  exists m1 : Z,
    (0 <= m1 <= 2 ^ 53)%Z /\
    Rabs (IZR m1 * powerRZ 2 e' - x * powerRZ 2 e) <= / 2 * powerRZ 2 e' /\
    binary_round_aux prec emax sx m e l = rounded sx m1 e'.
Proof.
  intros Hm Hx e'.
  destruct (shr_fexp_inbetween m e l x Hm Hx) as (E1 & H1 & D1 & B1). fold e' in E1, B1.
  unfold binary_round_aux.
  destruct (shr_fexp prec emax m e l) as [mrs' e1] eqn:S1. cbn [fst snd] in *. subst e1.
  destruct (round_nearest_even_inbetween _ _ _ B1) as [Hr Hb].
  set (m1 := round_nearest_even (shr_m mrs') (loc_of_shr_record mrs')) in *.
  pose proof (Zdigits2_le_53 _ H1 D1) as Hlt.
  assert (He' : (-1074 <= e')%Z).
  { unfold e', SpecFloat.fexp, SpecFloat.emin, prec, emax. lia. }
  exists m1. split; [lia|]. split.
  - assert (Hee : (0 <= e' - e)%Z) by (unfold e'; lia).
    assert (Hp : powerRZ 2 e' = IZR (2 ^ (e' - e)) * powerRZ 2 e).
    { rewrite IZR_pow2, <- bpow_add by lia. f_equal. lia. }
    pose proof (bpow_pos e) as Be. pose proof (bpow_pos e') as Be'.
    assert (Hq : 0 < IZR (2 ^ (e' - e))) by (apply IZR_lt, Z.pow_pos_nonneg; lia).
    replace (x * powerRZ 2 e) with (x / IZR (2 ^ (e' - e)) * powerRZ 2 e')
      by (rewrite Hp; field; lra).
    rewrite <- Rmult_minus_distr_r, Rabs_mult, (Rabs_pos_eq (powerRZ 2 e')) by lra.
    apply Rmult_le_compat_r; lra.
  - rewrite (shr_fexp_carry m1 e') by lia. unfold rounded.
    destruct (Z.eqb_spec m1 (2 ^ 53)) as [E|E].
    + rewrite E. cbn [shr_m]. reflexivity.
    + cbn [shr_m]. destruct m1 as [|p|p]; [reflexivity | | lia].
      reflexivity.
Qed.

Lemma bpow_le (a b : Z) : (a <= b)%Z -> powerRZ 2 a <= powerRZ 2 b.
Proof.
  intros H. replace b with (a + (b - a))%Z by lia. rewrite bpow_add.
  rewrite <- (IZR_pow2 (b - a)) by lia.
  assert (1 <= IZR (2 ^ (b - a))).
  { apply IZR_le. pose proof (Z.pow_pos_nonneg 2 (b - a)). lia. }
  pose proof (bpow_pos a). nra.
Qed.

Lemma inbetween_le (x : R) (m : Z) (l : location) : inbetween x m l -> IZR m <= x.
Proof. unfold inbetween. destruct l as [|[]]; lra. Qed.

Lemma IZR_close (a b : Z) : Rabs (IZR a - IZR b) < 1 -> a = b.
Proof.
  intros H. apply Rabs_def2 in H. destruct H as [H1 H2].
  rewrite <- minus_IZR in H1, H2.
  change (- (1)) with (IZR (-1)) in H2.
  apply lt_IZR in H1. apply lt_IZR in H2. lia.
Qed.

(** Two multiples of [u] less than [u] apart are equal. *)
Lemma multiples_close (u : R) (a b : Z) :
  0 < u -> Rabs (IZR a * u - IZR b * u) < u -> a = b.
Proof.
  intros Hu H. apply IZR_close.
  rewrite <- Rmult_minus_distr_r, Rabs_mult, (Rabs_pos_eq u) in H by lra.
  apply Rmult_lt_reg_r with u; lra.
Qed.

(** A positive mantissa of [d] digits is at least 2^(d-1). *)
Lemma mantissa_lower (m : Z) (e : Z) :
  (0 < m)%Z -> powerRZ 2 (Zdigits2 m - 1 + e) <= IZR m * powerRZ 2 e.
Proof.
  intros Hm. destruct m as [|p|p]; try lia.
  pose proof (Zdigits2_bounds p) as [Hlo _].
  pose proof (Zdigits2_pos (Z.pos p) Hm) as Hd.
  rewrite bpow_add, <- (IZR_pow2 (Zdigits2 (Z.pos p) - 1)) by lia.
  apply Rmult_le_compat_r; [apply Rlt_le, bpow_pos | apply IZR_le, Hlo].
Qed.

Lemma mantissa_upper (m : Z) (e : Z) :
  (0 < m)%Z -> IZR m * powerRZ 2 e <= powerRZ 2 (Zdigits2 m + e).
Proof.
  intros Hm. destruct m as [|p|p]; try lia.
  pose proof (Zdigits2_bounds p) as [_ Hhi].
  pose proof (Zdigits2_pos (Z.pos p) Hm) as Hd.
  rewrite bpow_add, <- (IZR_pow2 (Zdigits2 (Z.pos p))) by lia.
  apply Rmult_le_compat_r; [apply Rlt_le, bpow_pos | apply IZR_le; lia].
Qed.

Lemma bpow_52 (e : Z) : 4503599627370496 * powerRZ 2 e = powerRZ 2 (52 + e).
Proof.
  rewrite bpow_add, <- (IZR_pow2 52) by lia. reflexivity.
Qed.

(** The product of two positive finite numbers is their exact product [v]
    rounded to a nearest multiple of 2^e', where e' is the least exponent of
    the format or 2^52 * 2^e' <= v, or the product is exact. *)
Lemma SFmul_nearest mx ex my ey :
  let v := IZR (Z.pos mx) * powerRZ 2 ex * (IZR (Z.pos my) * powerRZ 2 ey) in
  exists m1 e',
    (0 <= m1 <= 2 ^ 53)%Z /\ (-1074 <= e')%Z /\
    Rabs (IZR m1 * powerRZ 2 e' - v) <= / 2 * powerRZ 2 e' /\
    SF64mul (S754_finite false mx ex) (S754_finite false my ey) = rounded false m1 e' /\
    (e' = (-1074)%Z \/ 4503599627370496 * powerRZ 2 e' <= v \/ IZR m1 * powerRZ 2 e' = v).
Proof.
  intros v. unfold SF64mul, SFmul. cbn [xorb].
  set (m := Z.pos (mx * my)). set (e := (ex + ey)%Z).
  assert (Hv : v = IZR m * powerRZ 2 e).
  { unfold v, m, e. rewrite Pos2Z.inj_mul, mult_IZR, bpow_add. ring. }
  destruct (binary_round_aux_nearest false m e loc_Exact (IZR m)) as (m1 & Hm1 & Hr & Hb);
    [unfold m; lia | reflexivity |].
  set (e' := Z.max e (SpecFloat.fexp prec emax (Zdigits2 m + e))) in *.
  rewrite <- Hv in Hr.
  exists m1, e'. split; [exact Hm1|].
  assert (He' : (-1074 <= e')%Z).
  { unfold e', SpecFloat.fexp, SpecFloat.emin, prec, emax. lia. }
  split; [exact He'|]. split; [exact Hr|]. split; [exact Hb|].
  destruct (Z.eq_dec e' (-1074)) as [E|E]; [left; exact E | right].
  destruct (Z_le_gt_dec (Zdigits2 m + e - 53) e) as [Hc|Hc].
  - right. assert (Ee : e' = e).
    { unfold e', SpecFloat.fexp, SpecFloat.emin, prec, emax in *. lia. }
    rewrite Ee in *. rewrite Hv in *.
    rewrite (multiples_close (powerRZ 2 e) m1 m); [reflexivity | apply bpow_pos |].
    pose proof (bpow_pos e). lra.
  - left. assert (Ee : e' = (Zdigits2 m + e - 53)%Z).
    { unfold e', SpecFloat.fexp, SpecFloat.emin, prec, emax in *. lia. }
    rewrite Ee, bpow_52, Hv.
    replace (52 + (Zdigits2 m + e - 53))%Z with (Zdigits2 m - 1 + e)%Z by lia.
    apply mantissa_lower. unfold m. lia.
Qed.

(** The location the division computes from the remainder [r] is that of
    the exact quotient. *)
Lemma new_location_inbetween (nb r q : Z) :
  (0 < nb)%Z -> (0 <= r < nb)%Z ->
  inbetween (IZR q + IZR r / IZR nb) q (new_location nb r).
Proof.
  intros Hnb Hr.
  assert (Y : 0 < IZR nb) by (apply IZR_lt; lia).
  assert (Hhalf : forall c : comparison, (2 * r ?= nb)%Z = c ->
            match c with
            | Lt => IZR r / IZR nb < / 2
            | Eq => IZR r / IZR nb = / 2
            | Gt => / 2 < IZR r / IZR nb
            end).
  { intros c Hc. destruct c.
    - apply Z.compare_eq in Hc. rewrite <- Hc, mult_IZR. field.
      apply eq_IZR_contrapositive. lia.
    - rewrite Z.compare_lt_iff in Hc. apply IZR_lt in Hc. rewrite mult_IZR in Hc.
      apply Rmult_lt_reg_r with (IZR nb); [exact Y|].
      unfold Rdiv. rewrite Rmult_assoc, Rinv_l by lra. lra.
    - rewrite Z.compare_gt_iff in Hc. apply IZR_lt in Hc. rewrite mult_IZR in Hc.
      apply Rmult_lt_reg_r with (IZR nb); [exact Y|].
      unfold Rdiv. rewrite Rmult_assoc, Rinv_l by lra. lra. }
  assert (Hlt1 : IZR r / IZR nb < 1).
  { apply Rmult_lt_reg_r with (IZR nb); [exact Y|].
    unfold Rdiv. rewrite Rmult_assoc, Rinv_l by lra.
    assert (IZR r < IZR nb) by (apply IZR_lt; lia). lra. }
  assert (Hpos : r <> 0%Z -> 0 < IZR r / IZR nb).
  { intros Hne. apply Rmult_lt_0_compat; [apply IZR_lt; lia | apply Rinv_0_lt_compat, Y]. }
  unfold new_location. change IntDef.Z.even with Z.even.
  destruct (Z.even nb) eqn:Hev; unfold new_location_even, new_location_odd;
    (destruct (Z.eqb_spec r 0) as [->|Hne];
     [cbn [inbetween]; unfold Rdiv; rewrite Rmult_0_l; lra | specialize (Hpos Hne)]).
  - pose proof (Hhalf _ eq_refl) as Hh.
    destruct (2 * r ?= nb)%Z; cbn [inbetween]; lra.
  - assert (Hodd : (2 * r <> nb)%Z).
    { intros E. rewrite <- E, Z.even_mul in Hev. discriminate Hev. }
    destruct (2 * r + 1 ?= nb)%Z eqn:Hc.
    + apply Z.compare_eq in Hc.
      assert (Hc2 : (2 * r ?= nb)%Z = Lt) by (rewrite Z.compare_lt_iff; lia).
      pose proof (Hhalf _ Hc2) as Hh. cbn [inbetween] in *. lra.
    + rewrite Z.compare_lt_iff in Hc.
      assert (Hc2 : (2 * r ?= nb)%Z = Lt) by (rewrite Z.compare_lt_iff; lia).
      pose proof (Hhalf _ Hc2) as Hh. cbn [inbetween] in *. lra.
    + rewrite Z.compare_gt_iff in Hc.
      assert (Hc2 : (2 * r ?= nb)%Z = Gt) by (rewrite Z.compare_gt_iff; lia).
      pose proof (Hhalf _ Hc2) as Hh. cbn [inbetween] in *. lra.
Qed.

(** The integer quotient of the division, with its location, brackets the
    exact quotient [v]; its exponent is at most the least exponent of the
    format, or 52 below the magnitude of [v]. *)
Lemma SFdiv_core_binary_inbetween mx ex my ey :
  let v := IZR (Z.pos mx) * powerRZ 2 ex / (IZR (Z.pos my) * powerRZ 2 ey) in
  let '(q, e', l) := SFdiv_core_binary prec emax (Z.pos mx) ex (Z.pos my) ey in
  (0 <= q)%Z /\ inbetween (v / powerRZ 2 e') q l /\
  ((e' <= -1074)%Z \/ 4503599627370496 * powerRZ 2 e' <= v).
Proof.
  cbv zeta. unfold SFdiv_core_binary.
  set (k := (Zdigits2 (Z.pos mx) + ex - (Zdigits2 (Z.pos my) + ey))%Z).
  set (e' := Z.min _ (ex - ey)).
  assert (Hs : (0 <= ex - ey - e')%Z) by (unfold e'; lia).
  assert (Hk : (e' <= SpecFloat.fexp prec emax k)%Z) by (unfold e'; lia).
  set (s := (ex - ey - e')%Z) in *.
  assert (Hm' : match s with
                | Z.pos _ => Z.shiftl (Z.pos mx) s
                | 0%Z => Z.pos mx
                | Z.neg _ => 0%Z
                end = (Z.pos mx * 2 ^ s)%Z).
  { destruct s as [|p|p]; [lia | apply Z.shiftl_mul_pow2; lia | lia]. }
  change IntDef.Z.shiftl with Z.shiftl.
  rewrite Hm'. clear Hm'.
  assert (H2s : (0 < 2 ^ s)%Z) by (apply Z.pow_pos_nonneg; lia).
  pose proof (Z_div_mod (Z.pos mx * 2 ^ s) (Z.pos my) ltac:(lia)) as Hdm.
  change IntDef.Z.div_eucl with Z.div_eucl.
  destruct (Z.div_eucl (Z.pos mx * 2 ^ s) (Z.pos my)) as [q r].
  destruct Hdm as [Hq Hr].
  assert (Hq0 : (0 <= q)%Z) by nia.
  split; [exact Hq0|].
  assert (Y : 0 < IZR (Z.pos my)) by (apply IZR_lt; lia).
  assert (X : 0 < IZR (Z.pos mx)) by (apply IZR_lt; lia).
  pose proof (bpow_pos ey) as Bey. pose proof (bpow_pos e') as Be'.
  pose proof (bpow_pos ex) as Bex.
  assert (Hex : powerRZ 2 ex = IZR (2 ^ s) * powerRZ 2 ey * powerRZ 2 e').
  { rewrite IZR_pow2, <- !bpow_add by lia. f_equal. unfold s. lia. }
  split.
  - replace (IZR (Z.pos mx) * powerRZ 2 ex / (IZR (Z.pos my) * powerRZ 2 ey) / powerRZ 2 e')
      with (IZR q + IZR r / IZR (Z.pos my)).
    + apply new_location_inbetween; lia.
    + rewrite Hex.
      replace (IZR (Z.pos mx) * (IZR (2 ^ s) * powerRZ 2 ey * powerRZ 2 e') /
                 (IZR (Z.pos my) * powerRZ 2 ey) / powerRZ 2 e')
        with (IZR (Z.pos mx * 2 ^ s) / IZR (Z.pos my))
        by (rewrite mult_IZR; field; repeat split; lra).
      rewrite Hq, plus_IZR, mult_IZR. field. lra.
  - unfold SpecFloat.fexp, SpecFloat.emin, prec, emax in Hk.
    destruct (Z_le_gt_dec e' (-1074)) as [Hc|Hc]; [left; exact Hc | right].
    assert (Hk' : (e' <= k - 53)%Z) by lia.
    apply Rle_trans with (powerRZ 2 (k - 1)).
    { rewrite bpow_52. apply bpow_le. lia. }
    pose proof (mantissa_lower (Z.pos mx) ex ltac:(lia)) as Hlo.
    pose proof (mantissa_upper (Z.pos my) ey ltac:(lia)) as Hhi.
    set (d1 := Zdigits2 (Z.pos mx)) in *. set (d2 := Zdigits2 (Z.pos my)) in *.
    assert (Hsplit : powerRZ 2 (d1 - 1 + ex) = powerRZ 2 (k - 1) * powerRZ 2 (d2 + ey)).
    { rewrite <- bpow_add. f_equal. unfold k. lia. }
    pose proof (bpow_pos (k - 1)) as Bk. pose proof (bpow_pos (d2 + ey)) as Bd.
    set (Ymy := IZR (Z.pos my) * powerRZ 2 ey) in *.
    assert (HY : 0 < Ymy) by (unfold Ymy; apply Rmult_lt_0_compat; lra).
    apply Rmult_le_reg_r with Ymy; [exact HY|].
    unfold Rdiv. rewrite Rmult_assoc, Rinv_l, Rmult_1_r by lra.
    apply Rle_trans with (2 := Hlo). rewrite Hsplit.
    apply Rmult_le_compat_l; lra.
Qed.

(** The quotient of two positive finite numbers is their exact quotient [v]
    rounded to a nearest multiple of 2^e', where e' is the least exponent of
    the format or 2^52 * 2^e' <= v. *)
Lemma SFdiv_nearest mx ex my ey :
  let v := IZR (Z.pos mx) * powerRZ 2 ex / (IZR (Z.pos my) * powerRZ 2 ey) in
  exists m1 e',
    (0 <= m1 <= 2 ^ 53)%Z /\ (-1074 <= e')%Z /\
    Rabs (IZR m1 * powerRZ 2 e' - v) <= / 2 * powerRZ 2 e' /\
    SF64div (S754_finite false mx ex) (S754_finite false my ey) = rounded false m1 e' /\
    (e' = (-1074)%Z \/ 4503599627370496 * powerRZ 2 e' <= v).
Proof.
  intros v. unfold SF64div, SFdiv. cbn [xorb].
  pose proof (SFdiv_core_binary_inbetween mx ex my ey) as Hc. cbv zeta in Hc. fold v in Hc.
  destruct (SFdiv_core_binary prec emax (Z.pos mx) ex (Z.pos my) ey) as [[q e] l].
  destruct Hc as (Hq & Hin & Halt).
  destruct (binary_round_aux_nearest false q e l _ Hq Hin) as (m1 & Hm1 & Hr & Hb).
  set (e' := Z.max e (SpecFloat.fexp prec emax (Zdigits2 q + e))) in *.
  pose proof (bpow_pos e) as Be.
  replace (v / powerRZ 2 e * powerRZ 2 e) with v in Hr by (field; lra).
  exists m1, e'. split; [exact Hm1|].
  assert (He' : (-1074 <= e')%Z).
  { unfold e', SpecFloat.fexp, SpecFloat.emin, prec, emax. lia. }
  split; [exact He'|]. split; [exact Hr|]. split; [exact Hb|].
  destruct (Z.eq_dec e' (-1074)) as [E|E]; [left; exact E | right].
  destruct (Z_le_gt_dec (Zdigits2 q + e - 53) e) as [Hc|Hc].
  - assert (Ee : e' = e).
    { unfold e', SpecFloat.fexp, SpecFloat.emin, prec, emax in *. lia. }
    rewrite Ee. destruct Halt as [Ha|Ha]; [lia | exact Ha].
  - assert (Ee : e' = (Zdigits2 q + e - 53)%Z).
    { unfold e', SpecFloat.fexp, SpecFloat.emin, prec, emax in *. lia. }
    assert (Hq1 : (0 < q)%Z).
    { destruct q as [|p|p]; [cbn in Hc; lia | lia | lia]. }
    rewrite Ee, bpow_52.
    replace (52 + (Zdigits2 q + e - 53))%Z with (Zdigits2 q - 1 + e)%Z by lia.
    apply Rle_trans with (1 := mantissa_lower q e Hq1).
    apply inbetween_le in Hin.
    replace v with (v / powerRZ 2 e * powerRZ 2 e) by (field; lra).
    apply Rmult_le_compat_r; lra.
Qed.

(** The round trip on real numbers: [a] is [p * x] rounded to a nearest
    multiple of [E1], [p'] is [a / x] rounded to a nearest multiple of [E2],
    [u] is the least positive number. *)
Lemma round_trip_real (u p x a p' E1 E2 : R) (Kp m1 m2 : Z) :
  0 < u -> (1 <= Kp)%Z -> p = IZR Kp * u -> 1 <= x ->
  a = IZR m1 * E1 ->
  Rabs (a - p * x) <= / 2 * E1 ->
  (E1 = u \/ 4503599627370496 * E1 <= p * x \/ a = p * x) ->
  p' = IZR m2 * E2 -> u <= E2 ->
  Rabs (p' - a / x) <= / 2 * E2 ->
  (E2 = u \/ 4503599627370496 * E2 <= a / x) ->
  Rabs (p' - p) <= / 10 ^ 9 * p.
Proof.
  intros Hu HK Hp Hx Ha Hmul Alt1 Hp' HE2 Hdiv Alt2.
  assert (HKp : 1 <= IZR Kp) by (apply IZR_le, HK).
  assert (Hpu : u <= p) by (rewrite Hp; nra).
  set (y := / x).
  assert (Hy : 0 < y <= 1).
  { unfold y. split; [apply Rinv_0_lt_compat; lra|].
    rewrite <- Rinv_1. apply Rinv_le_contravar; lra. }
  assert (Hxy : x * y = 1) by (unfold y; apply Rinv_r; lra).
  assert (Hq : a / x - p = (a - p * x) * y).
  { unfold Rdiv. fold y. replace p with (p * 1) at 1 by ring. rewrite <- Hxy. ring. }
  set (q := a / x) in *. set (d := a - p * x) in *.
  apply Rabs_le_bounds in Hmul. apply Rabs_le_bounds in Hdiv.
  (* the error of the first rounding, seen from the principal *)
  assert (Hdelta : q = p \/ (- (u / 2) < q - p < u / 2) \/
                   (- (p / 9007199254740992) <= q - p <= p / 9007199254740992)).
  { destruct Alt1 as [E|[E|E]].
    - subst E1. destruct (Req_dec x 1) as [Hx1|Hx1].
      + left. assert (m1 = Kp).
        { apply (multiples_close u); [exact Hu|]. rewrite <- Ha, <- Hp.
          apply Rabs_def1; unfold d in Hmul; rewrite Hx1 in Hmul; lra. }
        subst m1. unfold q. rewrite Hx1, Ha, Hp. field.
      + right. left. rewrite Hq.
        assert (Hy1 : y < 1).
        { unfold y. rewrite <- Rinv_1. apply Rinv_lt_contravar; lra. }
        split; nra.
    - right. right. rewrite Hq.
      assert (Hb : p * x * y = p) by (rewrite Rmult_assoc, Hxy; ring).
      split; nra.
    - left. unfold q. rewrite E. field. lra. }
  destruct Alt2 as [E|E].
  - subst E2.
    assert (Hsame : - u < p' - p < u -> Rabs (p' - p) <= / 10 ^ 9 * p).
    { intros H. assert (m2 = Kp).
      { apply (multiples_close u); [exact Hu|]. rewrite <- Hp', <- Hp.
        apply Rabs_def1; lra. }
      subst m2. rewrite Hp', <- Hp.
      replace (p - p) with 0 by ring. rewrite Rabs_R0. lra. }
    destruct Hdelta as [D|[D|D]]; try (apply Hsame; lra).
    destruct (Rlt_le_dec (IZR Kp) 4503599627370496) as [Hs|Hs].
    + apply Hsame. assert (p < 4503599627370496 * u) by (rewrite Hp; nra). lra.
    + assert (4503599627370496 * u <= p) by (rewrite Hp; nra).
      apply Rabs_le. lra.
  - apply Rabs_le. destruct Hdelta as [D|[D|D]]; lra.
Qed.

(** [isFinite] holds of the zeros and the finite numbers. *)
Lemma isFinite_spec (x : float) :
  isFinite x =
    match Prim2SF x with
    | S754_zero _ | S754_finite _ _ _ => true
    | _ => false
    end.
Proof.
  unfold isFinite, is_finite, is_nan, is_infinity.
  rewrite !eqb_spec, abs_spec. unfold SFeqb.
  change (Prim2SF infinity) with (S754_infinity false).
  destruct (Prim2SF x) as [[]|[]| |[] m e]; cbn [SFabs SFcompare]; try reflexivity;
    rewrite Z.compare_refl; change PosDef.Pos.compare_cont with Pos.compare_cont;
    rewrite Pos.compare_cont_refl; reflexivity.
Qed.

(** A number above 0 is a positive finite number or +Infinity; a number
    not below 1 is +Infinity or a finite number at least 1. *)
Lemma ltb_zero_inv (x : float) :
  (0 <? x) = true ->
  Prim2SF x = S754_infinity false \/ exists m e, Prim2SF x = S754_finite false m e.
Proof.
  rewrite ltb_spec, Prim2SF_zero. unfold SFltb.
  destruct (Prim2SF x) as [[]|[]| |[] m e]; cbn; try discriminate; eauto.
Qed.


Lemma leb_one_inv (x : float) :
  (1 <=? x)%float = true ->
  Prim2SF x = S754_infinity false \/
  exists m e, Prim2SF x = S754_finite false m e /\ 1 <= IZR (Z.pos m) * powerRZ 2 e.
Proof.
  intros H. pose proof (Prim2SF_valid x) as Hv.
  rewrite leb_spec, Prim2SF_one in H. unfold SFleb in H.
  destruct (Prim2SF x) as [[]|[]| |[] m e]; cbn [SFcompare] in H; try discriminate;
    [left; reflexivity | right].
  exists m, e. split; [reflexivity|].
  destruct (valid_finite_bounds _ _ _ Hv) as (He & Hd & Hn).
  pose proof (mantissa_lower (Z.pos m) e ltac:(lia)) as Hlo.
  destruct (-52 ?= e)%Z eqn:Hc.
  - apply Z.compare_eq in Hc. subst e.
    change (PosDef.Pos.compare_cont Eq 4503599627370496 m)
      with (Pos.compare 4503599627370496 m) in H.
    assert (Hm : (4503599627370496 <= m)%positive).
    { unfold Pos.le. destruct (4503599627370496 ?= m)%positive; discriminate. }
    replace 1 with (4503599627370496 * powerRZ 2 (-52))
      by (rewrite bpow_52; reflexivity).
    apply Rmult_le_compat_r; [apply Rlt_le, bpow_pos | apply IZR_le; lia].
  - rewrite Z.compare_lt_iff in Hc.
    rewrite Hn in Hlo by (unfold SpecFloat.emin, prec, emax; lia).
    apply Rle_trans with (2 := Hlo).
    change 1 with (powerRZ 2 0). apply bpow_le. lia.
  - discriminate H.
Qed.

(** The value of a rounded number that is not infinite, which is at most
    the largest finite number; an infinite one has an exponent above the
    format's. *)
Lemma rounded_value (m1 e' : Z) :
  (0 <= m1 <= 2 ^ 53)%Z ->
  match rounded false m1 e' with
  | S754_infinity _ => (m1 = 2 ^ 53 /\ 971 <= e')%Z \/ (0 < m1 /\ 972 <= e')%Z
  | r => SF2R r = IZR m1 * powerRZ 2 e' /\
         IZR m1 * powerRZ 2 e' <= 9007199254740991 * powerRZ 2 971
  end.
Proof.
  intros Hm. unfold rounded.
  pose proof (bpow_pos 971) as B. pose proof (bpow_pos e') as Be.
  destruct (Z.eqb_spec m1 0) as [->|H0].
  { cbn [SF2R]. split; [ring | lra]. }
  destruct (Z.eqb_spec m1 (2 ^ 53)) as [->|H1].
  - destruct (Z.leb_spec (e' + 1) 971) as [He|He]; [|left; lia].
    cbn [SF2R].
    assert (Hs : 4503599627370496 * powerRZ 2 (e' + 1) = IZR (2 ^ 53) * powerRZ 2 e').
    { rewrite bpow_add. change (powerRZ 2 1) with (2 * 1).
      change (IZR (2 ^ 53)) with 9007199254740992. ring. }
    split; [exact Hs|]. rewrite <- Hs.
    pose proof (bpow_le (e' + 1) 971 He) as Hle. lra.
  - destruct (Z.leb_spec e' 971) as [He|He]; [|right; lia].
    cbn [SF2R]. rewrite Z2Pos.id by lia. split; [reflexivity|].
    pose proof (bpow_le e' 971 He) as Hle.
    assert (Hm1 : IZR m1 <= 9007199254740991) by (apply IZR_le; lia).
    assert (0 <= IZR m1) by (apply IZR_le; lia).
    nra.
Qed.

Lemma rounded_sign (sx : bool) (m1 e' : Z) :
  match rounded sx m1 e' with
  | S754_finite s _ _ => s = sx
  | _ => True
  end.
Proof.
  unfold rounded. destruct (m1 =? 0)%Z; [exact I|].
  destruct (m1 =? 2 ^ 53)%Z; [destruct (e' + 1 <=? 971)%Z | destruct (e' <=? 971)%Z];
    try exact I; reflexivity.
Qed.

End RoundingError.

(** ** The solvers: amount, time, frequency *)

(** C1: for every input, [calculateFinalAmount] fails with [InvalidInput]
    exactly when P <= 0, R < 0, T <= 0 or n <= 0, and returns the value
    P * (1 + (R/100)/n)^(n*T) exactly when none of them holds. *)
Theorem calculateFinalAmount_spec (host : Host) (P R T n : float) :
  let invalid := (P <=? 0) || (R <? 0) || (T <=? 0) || (n <=? 0) in
  let r := calculateFinalAmount host P R T n in
  (fails_with InvalidInput r <-> invalid = true) /\
  (error r <> None <-> invalid = true) /\
  (r = value_result (P * Math_pow host (1 + R / 100 / n) (n * T)) <-> invalid = false).
Proof.
  unfold calculateFinalAmount, fails_with.
  destruct ((P <=? 0) || (R <? 0) || (T <=? 0) || (n <=? 0)); cbn -[msg_amount_guard].
  - repeat split; intros; try reflexivity; try discriminate.
  - repeat split; intros; try reflexivity; try discriminate; try congruence.
Qed.

(** The call of the specification's example stops at the first guard. *)
Lemma calculateTime_example_guard (host : Host) :
  calculateTime host 1000 1200 0 12 = error_result msg_time_guard.
Proof. reflexivity. Qed.

(** The specification's example of a non-positive principal. *)
Example calculateFinalAmount_negative_principal (host : Host) :
  fails_with InvalidInput (calculateFinalAmount host (-5) 5 1 12).
Proof. reflexivity. Qed.

(** C4 (as the code has it): [calculateTime] at A = 1000, P = 1200, R = 0,
    n = 12 fails at the first guard, which rejects R <= 0: the error is the
    positivity message, of class [InvalidInput]. *)
Theorem calculateTime_zero_rate_guard (host : Host) :
  calculateTime host 1000 1200 0 12 = error_result msg_time_guard /\
  fails_with InvalidInput (calculateTime host 1000 1200 0 12).
Proof.
  rewrite (calculateTime_example_guard host). split; reflexivity.
Qed.

(** C4, refuted as stated: on no host is that failure a [DomainViolation]. *)
Lemma calculateTime_zero_rate_not_domain_violation :
  ~ exists host : Host, fails_with DomainViolation (calculateTime host 1000 1200 0 12).
Proof.
  intros [host H]. unfold fails_with in H.
  rewrite (calculateTime_example_guard host) in H.
  vm_compute in H. discriminate H.
Qed.

(** C5: for positive A, P, R and n with A = P, [calculateTime] returns the
    value 0, whatever the host's logarithm is: the formula is not reached. *)
Theorem calculateTime_equal_amounts (host : Host) (A P R n : float) :
  (0 <? A) = true -> (0 <? P) = true -> (0 <? R) = true -> (0 <? n) = true ->
  (A =? P) = true ->
  calculateTime host A P R n = value_result 0.
Proof.
  intros HA HP HR Hn HAP. unfold calculateTime, gtb.
  rewrite (FloatFacts.ltb_true_leb_false _ _ HA),
          (FloatFacts.ltb_true_leb_false _ _ HP),
          (FloatFacts.ltb_true_leb_false _ _ HR),
          (FloatFacts.ltb_true_leb_false _ _ Hn).
  rewrite (FloatFacts.eqb_true_ltb_false _ _ HAP), HAP, HR.
  reflexivity.
Qed.

Lemma calculateTime_equal_amounts_witness :
  calculateTime example_host 1000 1000 5 12 = value_result 0.
Proof.
  apply (calculateTime_equal_amounts example_host 1000 1000 5 12); reflexivity.
Defined.

(** C7: for every input, [calculateFrequency] returns the advisory message:
    it carries a message, no value and no error, and the controller shows
    the message as a plain paragraph. *)
Theorem calculateFrequency_advisory (host : Host) (A P R T : float) :
  let r := calculateFrequency A P R T in
  r = message_result msg_frequency /\
  message r = Some msg_frequency /\ value r = None /\ error r = None /\
  render host "frequency" r = Paragraph msg_frequency.
Proof. repeat split. Qed.

(** ** The form: the disabled flags follow the selection *)

Lemma consistent_spec (frm : Form) :
  consistent frm = true ->
  forall fld, disabled (get_input frm fld) = is_target frm fld.
Proof.
  unfold consistent, is_target. cbn [forallb field_order].
  rewrite !andb_true_iff. intros (Hp & Hr & Ht & Hf & Ha & _) fld.
  destruct fld; apply eqb_prop; assumption.
Qed.

(** [updateInputStates] leaves exactly the target's field disabled. *)
Lemma updateInputStates_consistent (frm : Form) :
  consistent (updateInputStates frm) = true.
Proof.
  destruct frm as [ip ir it ifr ia s].
  unfold updateInputStates, inputs. cbn [solveForSelect].
  destruct (String.eqb_spec s "principal") as [->|Hp]; [reflexivity|].
  destruct (String.eqb_spec s "rate") as [->|Hr]; [reflexivity|].
  destruct (String.eqb_spec s "time") as [->|Ht]; [reflexivity|].
  destruct (String.eqb_spec s "frequency") as [->|Hf]; [reflexivity|].
  destruct (String.eqb_spec s "amount") as [->|Ha]; [reflexivity|].
  unfold consistent. cbn.
  apply String.eqb_neq in Hp, Hr, Ht, Hf, Ha.
  rewrite Hp, Hr, Ht, Hf, Ha. reflexivity.
Qed.

(** Typing into a field keeps the flags and the selection. *)
Lemma type_into_consistent (fld : Field) (text : string) (frm : Form) :
  consistent frm = true -> consistent (type_into fld text frm) = true.
Proof.
  unfold type_into. destruct (disabled (get_input frm fld)) eqn:Hd; [trivial|].
  destruct frm as [ip ir it ifr ia s].
  unfold consistent. destruct fld; cbn in *; rewrite ?Hd; trivial.
Qed.

Lemma select_target_consistent (key : string) (frm : Form) :
  consistent (select_target key frm) = true.
Proof. apply updateInputStates_consistent. Qed.

(** [updateInputStates] clears the target's field and keeps the text of
    the others. *)
Lemma updateInputStates_values (frm : Form) (fld : Field) :
  input_value (get_input (updateInputStates frm) fld) =
    if (solveForSelect frm =? field_key fld)%string then ""
    else input_value (get_input frm fld).
Proof.
  destruct frm as [ip ir it ifr ia s].
  unfold updateInputStates, inputs. cbn [solveForSelect].
  destruct (String.eqb_spec s "principal") as [->|Hp]; [destruct fld; reflexivity|].
  destruct (String.eqb_spec s "rate") as [->|Hr]; [destruct fld; reflexivity|].
  destruct (String.eqb_spec s "time") as [->|Ht]; [destruct fld; reflexivity|].
  destruct (String.eqb_spec s "frequency") as [->|Hf]; [destruct fld; reflexivity|].
  destruct (String.eqb_spec s "amount") as [->|Ha]; [destruct fld; reflexivity|].
  apply String.eqb_neq in Hp, Hr, Ht, Hf, Ha.
  destruct fld; cbn; rewrite ?Hp, ?Hr, ?Ht, ?Hf, ?Ha; reflexivity.
Qed.

(** ** The controller: validation *)

Lemma validationError_first_violation (host : Host) (frm : Form) :
  consistent frm = true ->
  validationError host frm =
    match first_violation host frm with
    | Some fld => validation_message fld
    | None => ""
    end.
Proof.
  intros Hc. pose proof (consistent_spec frm Hc) as Hd.
  pose proof (Hd principal) as Hp. pose proof (Hd rate) as Hr.
  pose proof (Hd time) as Ht. pose proof (Hd frequency) as Hf.
  pose proof (Hd amount) as Ha. clear Hd Hc.
  unfold is_target in *. cbn [get_input field_key] in *.
  unfold validationError, first_violation, violated, parsed, is_target.
  cbn [find field_order get_input field_key].
  rewrite Hp, Hr, Ht, Hf, Ha.
  repeat match goal with
  | |- context [negb ?b && negb ?b && ?c] =>
      replace (negb b && negb b && c) with (negb b && c)
        by (destruct b; reflexivity)
  end.
  repeat match goal with
  | |- context [if ?b then _ else _] => destruct b
  end; reflexivity.
Qed.



(** ** The shape of the solvers' results *)

Ltac split_ifs :=
  repeat match goal with
  | |- context [if ?b then _ else _] => destruct b
  end.

Ltac known_error :=
  apply out_error; unfold solver_errors; cbn [In]; tauto.

Lemma solver_of_output (host : Host) (fld : Field) (a b c d : float) :
  solver_output fld (solver_of host fld a b c d).
Proof.
  destruct fld; cbn [solver_of];
    unfold calculateFinalAmount, calculatePrincipal, calculateRate, calculateTime,
      calculateFrequency;
    split_ifs; first [ apply out_value | apply out_message | known_error ].
Qed.

Lemma solver_errors_truthy (m : string) :
  In m solver_errors -> (m =? "")%string = false /\ m <> msg_unexpected.
Proof.
  unfold solver_errors. cbn [In].
  intros H; repeat destruct H as [<-|H]; try contradiction;
    (split; [reflexivity | discriminate]).
Qed.

Lemma render_solver_output (host : Host) (key : string) (fld : Field) (r : Result) :
  solver_output fld r -> render host key r <> ErrorParagraph msg_unexpected.
Proof.
  intros [f m Hm| |f v].
  - destruct (solver_errors_truthy m Hm) as [Hne Hdiff].
    unfold render. cbn [error error_result truthy text_of]. rewrite Hne. cbn [negb].
    congruence.
  - vm_compute. discriminate.
  - unfold render, render_value. cbn [error message value value_result truthy].
    split_ifs; discriminate.
Qed.

Lemma exactly_one_solver_output (fld : Field) (r : Result) :
  solver_output fld r -> exactly_one r = true.
Proof. intros [f m Hm| |f v]; reflexivity. Qed.

(** C8: every call of one of the five solvers returns a result with exactly
    one of [error], [message], [value], the message occurring for the
    frequency solver only; the controller's display of such a result, and of
    any calculation request, is never the unexpected-error fallback. *)
Theorem solver_result_exactly_one
  (host : Host) (fld : Field) (a b c d : float) (key : string) (frm : Form) :
  let r := solver_of host fld a b c d in
  exactly_one r = true /\
  (message r = None \/ fld = frequency) /\
  render host key r <> ErrorParagraph msg_unexpected /\
  innerHTML (performCalculation host frm) <> ErrorParagraph msg_unexpected.
Proof.
  intros r. pose proof (solver_of_output host fld a b c d) as Hr. fold r in Hr.
  repeat split.
  - exact (exactly_one_solver_output fld r Hr).
  - destruct Hr; [left | right | left]; reflexivity.
  - exact (render_solver_output host key fld r Hr).
  - unfold performCalculation.
    destruct (negb (validationError host frm =? "")%string) eqn:Hv.
    + cbn [innerHTML]. unfold validationError in *.
      revert Hv. split_ifs; cbn; intros Hv; discriminate.
    + unfold dispatch. split_ifs; cbn [innerHTML].
      * apply (render_solver_output host _ amount); apply (solver_of_output host amount).
      * apply (render_solver_output host _ principal); apply (solver_of_output host principal).
      * apply (render_solver_output host _ rate); apply (solver_of_output host rate).
      * apply (render_solver_output host _ time); apply (solver_of_output host time).
      * apply (render_solver_output host _ frequency); apply (solver_of_output host frequency).
      * discriminate.
Qed.

(** ** Signs of the quantities the solvers compute *)

(** A number that is not [<= 0] and is not NaN is [> 0]. *)
Lemma not_leb_zero_gtb (x : float) :
  (x <=? 0) = false -> isNaN x = false -> gtb x 0 = true.
Proof.
  unfold gtb, isNaN, PrimFloat.is_nan.
  rewrite leb_spec, ltb_spec, eqb_spec, Rounding.Prim2SF_zero.
  unfold SFleb, SFltb, SFeqb.
  destruct (Prim2SF x) as [[]|[]| |[] m e]; cbn; congruence.
Qed.

(** With A and P not [<= 0], the ratio A / P is not negative. *)
Lemma ratio_not_negative (A P : float) :
  (A <=? 0) = false -> (P <=? 0) = false -> (A / P <? 0) = false.
Proof.
  intros HA HP. apply Rounding.nonneg_or_nan_ltb_zero. rewrite div_spec.
  apply Rounding.SFdiv_nonneg.
  - apply Rounding.pos_nonneg_or_nan, Rounding.leb_zero_false, HA.
  - apply Rounding.leb_zero_false, HP.
Qed.

(** With R and n not [<= 0], the base 1 + (R/100)/n is not [<= 0]. *)
Lemma growth_base_positive (R n : float) :
  (R <=? 0) = false -> (n <=? 0) = false -> (1 + R / 100 / n <=? 0) = false.
Proof.
  intros HR Hn. apply Rounding.pos_or_nan_leb_zero. rewrite add_spec.
  apply Rounding.SFadd_one_pos; [apply Prim2SF_valid|].
  rewrite div_spec. apply Rounding.SFdiv_nonneg; [|apply Rounding.leb_zero_false, Hn].
  rewrite div_spec. apply Rounding.SFdiv_nonneg.
  - apply Rounding.pos_nonneg_or_nan, Rounding.leb_zero_false, HR.
  - rewrite Rounding.Prim2SF_hundred. reflexivity.
Qed.

(** With A and P not [<= 0], A not below P and A different from P, the
    ratio A / P is not [<= 0]: it cannot underflow to zero. *)
Lemma ratio_positive (A P : float) :
  (A <=? 0) = false -> (P <=? 0) = false ->
  (A <? P) = false -> (A =? P) = false ->
  (A / P <=? 0) = false.
Proof.
  intros HA HP Hlt Heq. apply Rounding.pos_or_nan_leb_zero. rewrite div_spec.
  rewrite ltb_spec in Hlt. rewrite eqb_spec in Heq.
  apply Rounding.SFdiv_gt_pos; auto using Prim2SF_valid, Rounding.leb_zero_false.
Qed.

Lemma error_result_neq (m1 m2 : string) :
  (m1 =? m2)%string = false -> error_result m1 <> error_result m2.
Proof. intros H E. injection E as E. apply String.eqb_neq in H. contradiction. Qed.

(** ** The solvers: rate *)

(** What [calculateRate] computes: it fails on A <= 0, P <= 0, T <= 0 or
    n <= 0, and on A < P; otherwise, with the decimal rate
    r = n * ((A/P)^(1/(n*T)) - 1), it fails when r is NaN or infinite and
    else returns r * 100.  The check of line 41 is made on r, before the
    multiplication by 100 of line 44; the check on a negative ratio never
    fires. *)
Lemma calculateRate_spec (host : Host) (A P T n : float) :
  let r := n * (Math_pow host (A / P) (1 / (n * T)) - 1) in
  calculateRate host A P T n =
    (if (A <=? 0) || (P <=? 0) || (T <=? 0) || (n <=? 0) then error_result msg_rate_guard
     else if A <? P then error_result msg_rate_shrink
     else if isNaN r || negb (isFinite r) then error_result msg_rate_invalid
     else value_result (rate_percent host A P T n)) /\
  fails_with InvalidInput (error_result msg_rate_guard) /\
  fails_with DomainViolation (error_result msg_rate_shrink) /\
  fails_with NumericDomainError (error_result msg_rate_invalid).
Proof.
  split; [|repeat split].
  unfold calculateRate, rate_percent.
  destruct ((A <=? 0) || (P <=? 0) || (T <=? 0) || (n <=? 0)) eqn:Hg; [reflexivity|].
  destruct (A <? P); [reflexivity|].
  apply orb_false_elim in Hg. destruct Hg as [Hg _].
  apply orb_false_elim in Hg. destruct Hg as [Hg _].
  apply orb_false_elim in Hg. destruct Hg as [HA HP].
  rewrite (ratio_not_negative A P HA HP). reflexivity.
Qed.

(** C3: the rate solver returns an infinite rate as a value.  On a host
    whose [Math.pow] returns its base for the exponent 1, the call with
    A = 2^1020, P = 1, T = 1, n = 1 has the finite decimal rate 2^1020, which
    passes the check of line 41; line 44 multiplies it by 100, and the call
    returns the value Infinity, not a failure of class
    [NumericDomainError]. *)
Theorem calculateRate_scaling_overflow (host : Host) :
  Math_pow host 0x1p1020 1 = 0x1p1020 ->
  calculateRate host 0x1p1020 1 1 1 = value_result infinity /\
  isFinite (rate_percent host 0x1p1020 1 1 1) = false /\
  ~ fails_with NumericDomainError (calculateRate host 0x1p1020 1 1 1).
Proof.
  intros Hp. unfold rate_percent, calculateRate.
  change (0x1p1020 / 1) with 0x1p1020. change (1 / (1 * 1)) with 1.
  rewrite Hp. repeat split. discriminate.
Qed.

Lemma calculateRate_scaling_overflow_witness :
  calculateRate example_host 0x1p1020 1 1 1 = value_result infinity /\
  isFinite (rate_percent example_host 0x1p1020 1 1 1) = false /\
  ~ fails_with NumericDomainError (calculateRate example_host 0x1p1020 1 1 1).
Proof. apply (calculateRate_scaling_overflow example_host). reflexivity. Defined.

(** ** The solvers: time *)

(** C10 (as the code has it): [calculateTime] never returns the "Rate must
    be greater than 0" error nor the "log of non-positive value" error, and
    returns the "non-positive A/P ratio" error only when the rate is NaN. *)
Theorem calculateTime_dead_branches (host : Host) (A P R n : float) :
  let r := calculateTime host A P R n in
  r <> error_result msg_time_zero_rate /\
  r <> error_result msg_time_log /\
  (isNaN R = true \/ r <> error_result msg_time_ratio).
Proof.
  cbv zeta. unfold calculateTime.
  destruct ((A <=? 0) || (P <=? 0) || (R <=? 0) || (n <=? 0)) eqn:Hg.
  { repeat split; [| |right]; apply error_result_neq; reflexivity. }
  apply orb_false_elim in Hg. destruct Hg as [Hg Hn].
  apply orb_false_elim in Hg. destruct Hg as [Hg HR].
  apply orb_false_elim in Hg. destruct Hg as [HA HP].
  destruct ((A <? P) && gtb R 0) eqn:H53.
  { repeat split; [| |right]; apply error_result_neq; reflexivity. }
  destruct ((A =? P) && gtb R 0) eqn:H56.
  { repeat split; [| |right]; discriminate. }
  destruct (gtb A P && (R =? 0)) eqn:H57.
  { apply andb_true_iff in H57. destruct H57 as [_ H0].
    apply FloatFacts.eqb_true_leb_true in H0. congruence. }
  cbv zeta.
  destruct (n * Math_log host (1 + R / 100 / n) =? 0).
  { repeat split; [| |right]; apply error_result_neq; reflexivity. }
  rewrite (growth_base_positive R n HR Hn).
  destruct (A / P <=? 0) eqn:H68.
  - repeat split; try (apply error_result_neq; reflexivity).
    left. destruct (isNaN R) eqn:HN; [reflexivity|].
    rewrite (not_leb_zero_gtb R HR HN), andb_true_r in H53, H56.
    rewrite (ratio_positive A P HA HP H53 H56) in H68. discriminate.
  - destruct (isNaN _ || negb (isFinite _));
      repeat split; [| |right| | |right];
      first [apply error_result_neq; reflexivity | discriminate].
Qed.

(** On a host whose [Math.log] maps NaN to NaN, the call with the least
    positive number as A, P = 4, a NaN rate and n = 1 passes the guard, and
    A / P underflows to zero: the "non-positive A/P ratio" error is
    returned. *)
Lemma calculateTime_nan_rate (host : Host) :
  Math_log host nan = nan ->
  calculateTime host 0x1p-1074 4 nan 1 = error_result msg_time_ratio.
Proof.
  intros Hl. unfold calculateTime. cbn [orb andb].
  change (nan / 100) with nan. change (1 + nan / 1) with nan.
  rewrite Hl. reflexivity.
Qed.

(** C10, refuted as stated: on no such host does that call avoid the
    "non-positive A/P ratio" error. *)
Lemma calculateTime_ratio_error_reachable :
  ~ exists host : Host,
      Math_log host nan = nan /\
      calculateTime host 0x1p-1074 4 nan 1 <> error_result msg_time_ratio.
Proof.
  intros (host & Hl & Hne). exact (Hne (calculateTime_nan_rate host Hl)).
Qed.

(** ** The round trip between amount and principal *)

(** C2 (as the code has it): for P > 0, R >= 0, T > 0 and n > 0, when the
    growth factor [w] that the host's [Math.pow] returns is at least 1 and
    the amount P * w does not overflow, both solvers return values and the
    recovered principal is within 1e-9 of P, relative to P.  Nothing is
    asked of the size of P: subnormal principals are covered. *)
Theorem round_trip_without_overflow (host : Host) (P R_annual T n : float) :
  (0 <? P) = true -> (0 <=? R_annual) = true -> (0 <? T) = true -> (0 <? n) = true ->
  let w := Math_pow host (1 + R_annual / 100 / n) (n * T) in
  (1 <=? w) = true ->
  isFinite (P * w) = true ->
  round_trip_ok host P R_annual T n.
Proof.
  intros HP HR HT Hn w Hw HA.
  pose proof (FloatFacts.ltb_true_leb_false _ _ HP) as GP.
  pose proof (FloatFacts.leb_true_ltb_false _ _ HR) as GR.
  pose proof (FloatFacts.ltb_true_leb_false _ _ HT) as GT.
  pose proof (FloatFacts.ltb_true_leb_false _ _ Hn) as Gn.
  rewrite RoundingError.isFinite_spec, mul_spec in HA.
  destruct (RoundingError.ltb_zero_inv P HP) as [EP|(mp & ep & EP)].
  { rewrite EP in HA. destruct (RoundingError.leb_one_inv w Hw) as [EW|(mw & ew & EW & _)];
      rewrite EW in HA; discriminate HA. }
  destruct (RoundingError.leb_one_inv w Hw) as [EW|(mw & ew & EW & Hx)].
  { rewrite EP, EW in HA. discriminate HA. }
  pose proof (Prim2SF_valid P) as VP. rewrite EP in VP.
  destruct (Rounding.valid_finite_bounds _ _ _ VP) as (Hep & _ & _).
  unfold SpecFloat.emin, prec, emax in Hep.
  (* the amount *)
  destruct (RoundingError.SFmul_nearest mp ep mw ew) as (m1 & e1 & Hm1 & He1 & Hr1 & Hb1 & Alt1).
  cbv zeta in Hr1, Alt1.
  assert (EA : Prim2SF (P * w) = rounded false m1 e1)
    by (rewrite mul_spec, EP, EW; exact Hb1).
  rewrite EP, EW, Hb1 in HA.
  pose proof (RoundingError.rounded_value m1 e1 Hm1) as Hv1.
  pose proof (RoundingError.rounded_sign false m1 e1) as Hs1.
  set (p := (IZR (Z.pos mp) * powerRZ 2 ep)%R) in *.
  set (x := (IZR (Z.pos mw) * powerRZ 2 ew)%R) in *.
  set (u := powerRZ 2 (-1074)).
  set (a := (IZR m1 * powerRZ 2 e1)%R) in *.
  assert (Hu : (0 < u)%R) by apply RoundingError.bpow_pos.
  assert (Hp : p = (IZR (Z.pos mp * 2 ^ (ep + 1074)) * u)%R).
  { unfold p, u. rewrite mult_IZR, RoundingError.IZR_pow2, Rmult_assoc, <- RoundingError.bpow_add by lia.
    do 2 f_equal. lia. }
  assert (HK : (1 <= Z.pos mp * 2 ^ (ep + 1074))%Z).
  { pose proof (Z.pow_pos_nonneg 2 (ep + 1074)). nia. }
  assert (Hpu : (u <= p)%R).
  { rewrite Hp. apply IZR_le in HK. nra. }
  assert (Hpx : (p <= p * x)%R) by nra.
  assert (HE1 : (u <= powerRZ 2 e1)%R) by (apply RoundingError.bpow_le; lia).
  pose proof (RoundingError.Rabs_le_bounds _ _ Hr1) as Hr1'.
  assert (Ha : (0 < a)%R).
  { destruct Alt1 as [E|[E|E]]; [rewrite E in Hr1'; fold u in Hr1' | |]; lra. }
  destruct (rounded false m1 e1) as [s|s| |s ma ea] eqn:ER; try discriminate HA.
  { destruct Hv1 as [Hv1 _]. cbn [SF2R] in Hv1. lra. }
  subst s. destruct Hv1 as [Hv1 Hmax]. cbn [SF2R] in Hv1.
  (* the principal recovered from it *)
  destruct (RoundingError.SFdiv_nearest ma ea mw ew) as (m2 & e2 & Hm2 & He2 & Hr2 & Hb2 & Alt2).
  cbv zeta in Hr2, Alt2. rewrite Hv1 in Hr2, Alt2. fold x in Hr2, Alt2.
  assert (EP' : Prim2SF (P * w / w) = rounded false m2 e2)
    by (rewrite div_spec, EA, EW; exact Hb2).
  set (p' := (IZR m2 * powerRZ 2 e2)%R) in *.
  assert (HE2 : (u <= powerRZ 2 e2)%R) by (apply RoundingError.bpow_le; lia).
  assert (Hgoal : (Rabs (p' - p) <= / 10 ^ 9 * p)%R).
  { apply (RoundingError.round_trip_real u p x a p' (powerRZ 2 e1) (powerRZ 2 e2)
             (Z.pos mp * 2 ^ (ep + 1074)) m1 m2); auto.
    - destruct Alt1 as [E|[E|E]]; [left; rewrite E; reflexivity | auto | auto].
    - destruct Alt2 as [E|E]; [left; rewrite E; reflexivity | auto]. }
  assert (Hax : (a / x <= a)%R).
  { apply Rmult_le_reg_r with x; [lra|].
    unfold Rdiv. rewrite Rmult_assoc, Rinv_l by lra. nra. }
  pose proof (RoundingError.rounded_value m2 e2 Hm2) as Hv2.
  pose proof (RoundingError.Rabs_le_bounds _ _ Hr2) as Hr2'.
  exists (P * w), (P * w / w). split; [|split].
  - unfold calculateFinalAmount. rewrite GP, GR, GT, Gn. reflexivity.
  - unfold calculatePrincipal.
    rewrite (Rounding.pos_or_nan_leb_zero (P * w)) by (rewrite EA; reflexivity).
    rewrite GR, GT, Gn. reflexivity.
  - unfold approx_rel, F2R. rewrite !RoundingError.isFinite_spec, EP', EP.
    destruct (rounded false m2 e2) as [s|s| |s mp' ep'] eqn:ER2.
    + destruct Hv2 as [Hv2 _]. rewrite Hv2. fold p'.
      change (SF2R (S754_finite false mp ep)) with p.
      rewrite (Rabs_pos_eq p) by lra. auto.
    + exfalso.
      assert (Hbig : (4503599627370496 * powerRZ 2 e2 <= a / x)%R).
      { destruct Alt2 as [E|E]; [lia | exact E]. }
      pose proof (RoundingError.bpow_pos 971) as B.
      destruct Hv2 as [[E Hge]|[_ Hge]].
      * pose proof (RoundingError.bpow_le 971 e2 Hge) as Hle.
        unfold p' in Hr2'. rewrite E in Hr2'.
        change (IZR (2 ^ 53)) with 9007199254740992%R in Hr2'. lra.
      * pose proof (RoundingError.bpow_le 972 e2 Hge) as Hle.
        assert (Hs : powerRZ 2 972 = (2 * powerRZ 2 971)%R).
        { replace 972%Z with (1 + 971)%Z by lia. rewrite RoundingError.bpow_add.
          change (powerRZ 2 1) with (2 * 1)%R. ring. }
        lra.
    + unfold rounded in ER2.
      destruct (m2 =? 0)%Z; [discriminate|].
      destruct (m2 =? 2 ^ 53)%Z; [destruct (e2 + 1 <=? 971)%Z | destruct (e2 <=? 971)%Z];
        discriminate.
    + destruct Hv2 as [Hv2 _]. rewrite Hv2. fold p'.
      change (SF2R (S754_finite false mp ep)) with p.
      rewrite (Rabs_pos_eq p) by lra. auto.
Qed.

Lemma round_trip_without_overflow_witness :
  round_trip_ok example_host 1000 5 1 1 /\ round_trip_ok example_host 0x3p-1074 100 1 1.
Proof.
  split.
  - apply (round_trip_without_overflow example_host 1000 5 1 1); reflexivity.
  - apply (round_trip_without_overflow example_host 0x3p-1074 100 1 1); reflexivity.
Defined.

(** On a host whose [Math.pow] returns 2 for 2^1, the amount for
    P = 2^1023 at 100 percent over one year, compounded once, overflows. *)
Lemma round_trip_overflow (host : Host) :
  Math_pow host 2 1 = 2 ->
  calculateFinalAmount host 0x1p1023 100 1 1 = value_result infinity /\
  calculatePrincipal host infinity 100 1 1 = value_result infinity.
Proof.
  intros Hp. unfold calculateFinalAmount, calculatePrincipal.
  change (1 + 100 / 100 / 1) with 2. change (1 * 1) with 1.
  rewrite Hp. split; reflexivity.
Qed.

(** C2, refuted as stated: on no such host does the round trip from
    P = 2^1023, R = 100, T = 1, n = 1 come back to approximately P. *)
Lemma round_trip_fails_on_overflow :
  ~ exists host : Host,
      Math_pow host 2 1 = 2 /\ round_trip_ok host 0x1p1023 100 1 1.
Proof.
  intros (host & Hp & A & P' & HA & HP' & Hfin & _).
  destruct (round_trip_overflow host Hp) as [E1 E2].
  rewrite E1 in HA. injection HA as <-.
  rewrite E2 in HP'. injection HP' as <-.
  discriminate Hfin.
Qed.

(** The premise on the growth factor cannot be dropped: on a host whose
    [Math.pow] returned 1/2 for 2^1, the amount for P = 3 * 2^-1074 would
    be rounded to 2 * 2^-1074, and the principal recovered from it would be
    4 * 2^-1074. *)
Lemma round_trip_needs_growth :
  ~ exists host : Host,
      Math_pow host 2 1 = 0.5 /\ round_trip_ok host 0x3p-1074 100 1 1.
Proof.
  intros (host & Hp & A & P' & HA & HP' & _ & _ & Hb).
  unfold calculateFinalAmount in HA.
  change (1 + 100 / 100 / 1) with 2 in HA. change (1 * 1) with 1 in HA.
  rewrite Hp in HA. cbn [orb] in HA.
  vm_compute in HA.
  injection HA as <-.
  unfold calculatePrincipal in HP'.
  change (1 + 100 / 100 / 1) with 2 in HP'. change (1 * 1) with 1 in HP'.
  rewrite Hp in HP'. vm_compute in HP'. injection HP' as <-.
  unfold F2R in Hb.
  change (Prim2SF 0x1p-1072) with (S754_finite false 4 (-1074)) in Hb.
  change (Prim2SF 0x3p-1074) with (S754_finite false 3 (-1074)) in Hb.
  cbn [SF2R] in Hb.
  pose proof (RoundingError.bpow_pos (-1074)) as Hu.
  set (u := powerRZ 2 (-1074)) in *.
  apply RoundingError.Rabs_le_bounds in Hb.
  rewrite Rabs_pos_eq in Hb by lra. lra.
Qed.

(** ** Exact results of binary64 operations *)

Module Exact.

Import Rounding.
Local Open Scope Z_scope.

(** Halving an even mantissa shifts no bit out. *)
Lemma shr_1_exact m : 0 <= m -> shr_1 (exact_record (2 * m)) = exact_record m.
Proof. intros Hm. destruct m as [|q|q]; [reflexivity | reflexivity | lia]. Qed.

Lemma iter_shr_1_exact p : forall m,
  0 <= m -> SpecFloat.iter_pos shr_1 p (exact_record (m * 2 ^ Z.pos p)) = exact_record m.
Proof.
  induction p as [p IH|p IH|]; intros m Hm; cbn [SpecFloat.iter_pos].
  - assert (H1 : 0 <= m * 2 ^ Z.pos p) by (apply Z.mul_nonneg_nonneg; [|apply Z.pow_nonneg]; lia).
    assert (H2 : 0 <= m * 2 ^ Z.pos p * 2 ^ Z.pos p)
      by (apply Z.mul_nonneg_nonneg; [|apply Z.pow_nonneg]; lia).
    replace (m * 2 ^ Z.pos p~1) with (2 * ((m * 2 ^ Z.pos p) * 2 ^ Z.pos p)).
    + rewrite (shr_1_exact _ H2), (IH _ H1), (IH _ Hm). reflexivity.
    + rewrite (Pos2Z.inj_xI p), Z.pow_add_r, Z.pow_1_r by lia.
      replace (2 * Z.pos p) with (Z.pos p + Z.pos p) by lia.
      rewrite Z.pow_add_r by lia. ring.
  - assert (H1 : 0 <= m * 2 ^ Z.pos p) by (apply Z.mul_nonneg_nonneg; [|apply Z.pow_nonneg]; lia).
    replace (m * 2 ^ Z.pos p~0) with ((m * 2 ^ Z.pos p) * 2 ^ Z.pos p).
    + rewrite (IH _ H1), (IH _ Hm). reflexivity.
    + rewrite (Pos2Z.inj_xO p).
      replace (2 * Z.pos p) with (Z.pos p + Z.pos p) by lia.
      rewrite Z.pow_add_r by lia. ring.
  - rewrite Z.pow_1_r, Z.mul_comm. apply shr_1_exact, Hm.
Qed.

(** The number of binary digits is determined by the bracketing powers of 2. *)
Lemma Zdigits2_unique (x k : Z) :
  0 < x -> 2 ^ (k - 1) <= x < 2 ^ k -> Zdigits2 x = k.
Proof.
  intros Hx [Hlo Hhi]. destruct x as [|p|p]; try lia.
  pose proof (Zdigits2_bounds p) as [Blo Bhi].
  pose proof (Zdigits2_pos (Z.pos p) Hx) as Hd.
  assert (Hk : 0 < k).
  { destruct (Z_lt_le_dec 0 k) as [|Hk0]; [assumption|].
    assert (2 ^ k <= 2 ^ 0) by (apply Z.pow_le_mono_r; lia).
    change (2 ^ 0) with 1 in *. lia. }
  assert (H1 : 2 ^ (k - 1) < 2 ^ Zdigits2 (Z.pos p)) by lia.
  assert (H2 : 2 ^ (Zdigits2 (Z.pos p) - 1) < 2 ^ k) by lia.
  apply Z.pow_lt_mono_r_iff in H1; [|lia|lia].
  apply Z.pow_lt_mono_r_iff in H2; [|lia|lia].
  lia.
Qed.

Lemma Zdigits2_mul_pow2 (m : positive) (k : Z) :
  0 <= k -> Zdigits2 (Z.pos m * 2 ^ k) = Zdigits2 (Z.pos m) + k.
Proof.
  intros Hk. pose proof (Zdigits2_bounds m) as [Blo Bhi].
  pose proof (Zdigits2_pos (Z.pos m) ltac:(lia)) as Hd.
  assert (Hp : 0 < 2 ^ k) by (apply Z.pow_pos_nonneg; lia).
  apply Zdigits2_unique; [nia|].
  replace (Zdigits2 (Z.pos m) + k - 1) with (Zdigits2 (Z.pos m) - 1 + k) by lia.
  rewrite !Z.pow_add_r by lia. split; nia.
Qed.

(** Rounding a valid mantissa that was shifted left gives it back. *)
Lemma binary_round_aux_exact s (m : positive) (e : Z) (p : positive) :
  valid_binary (S754_finite s m e) = true ->
  binary_round_aux prec emax s (Z.pos m * 2 ^ Z.pos p) (e - Z.pos p) loc_Exact
  = S754_finite s m e.
Proof.
  intros Hv. pose proof Hv as Hv'.
  cbn [SpecFloat.valid_binary] in Hv'. unfold SpecFloat.bounded, SpecFloat.canonical_mantissa in Hv'.
  apply andb_true_iff in Hv'. destruct Hv' as [Hc Hb].
  apply Z.eqb_eq in Hc. apply Z.leb_le in Hb.
  unfold binary_round_aux, shr_fexp.
  rewrite Zdigits2_mul_pow2 by lia. cbn [Zdigits2].
  replace (Z.pos (digits2_pos m) + Z.pos p + (e - Z.pos p)) with (Z.pos (digits2_pos m) + e) by lia.
  rewrite Hc.
  replace (e - (e - Z.pos p)) with (Z.pos p) by lia.
  cbn [shr shr_record_of_loc].
  change (Build_shr_record (Z.pos m * 2 ^ Z.pos p) false false)
    with (exact_record (Z.pos m * 2 ^ Z.pos p)).
  rewrite iter_shr_1_exact by lia.
  cbn [exact_record loc_of_shr_record shr_m round_nearest_even Zdigits2].
  replace (e - Z.pos p + Z.pos p) with e by lia.
  rewrite Hc, Z.sub_diag. cbn [shr shr_m shr_record_of_loc].
  apply Z.leb_le in Hb. rewrite Hb. reflexivity.
Qed.

(** Rounding a valid mantissa at its own exponent gives it back. *)
Lemma binary_round_aux_valid s (m : positive) (e : Z) :
  valid_binary (S754_finite s m e) = true ->
  binary_round_aux prec emax s (Z.pos m) e loc_Exact = S754_finite s m e.
Proof.
  intros Hv. pose proof Hv as Hv'.
  cbn [SpecFloat.valid_binary] in Hv'.
  unfold SpecFloat.bounded, SpecFloat.canonical_mantissa in Hv'.
  apply andb_true_iff in Hv'. destruct Hv' as [Hc Hb]. apply Z.eqb_eq in Hc.
  unfold binary_round_aux, shr_fexp. cbn [Zdigits2].
  rewrite Hc, Z.sub_diag.
  cbn [shr shr_m shr_record_of_loc loc_of_shr_record round_nearest_even Zdigits2].
  rewrite Hc, Z.sub_diag. cbn [shr shr_m shr_record_of_loc].
  rewrite Hb. reflexivity.
Qed.

Lemma new_location_zero (n : Z) : new_location n 0 = loc_Exact.
Proof.
  unfold new_location, new_location_even, new_location_odd.
  destruct (Z.even n); reflexivity.
Qed.

(** A finite number other than zero divided by itself is 1. *)
Lemma SFdiv_self s m e :
  SF64div (S754_finite s m e) (S754_finite s m e) = Prim2SF 1.
Proof.
  unfold SF64div, SFdiv, SFdiv_core_binary.
  replace (Zdigits2 (Z.pos m) + e - (Zdigits2 (Z.pos m) + e))%Z with 0%Z by lia.
  rewrite Z.sub_diag.
  change (Z.min (fexp prec emax 0) 0) with (-53)%Z.
  change (0 - -53)%Z with 53%Z. cbv iota.
  rewrite Z.shiftl_mul_pow2 by lia.
  assert (Hq : (Z.pos m * 2 ^ 53 / Z.pos m = 2 ^ 53)%Z).
  { rewrite Z.mul_comm. apply Z.div_mul. lia. }
  assert (Hr : ((Z.pos m * 2 ^ 53) mod Z.pos m = 0)%Z).
  { rewrite Z.mul_comm. apply Z.mod_mul. lia. }
  unfold Z.div in Hq. unfold Z.modulo in Hr.
  destruct (Z.div_eucl (Z.pos m * 2 ^ 53) (Z.pos m)) as [q r].
  cbn [fst snd] in Hq, Hr. subst q r.
  assert (Hl : new_location (Z.pos m) 0 = loc_Exact).
  { unfold new_location, new_location_even, new_location_odd.
    destruct (Z.even (Z.pos m)); reflexivity. }
  rewrite Hl. destruct s; vm_compute; reflexivity.
Qed.

Local Close Scope Z_scope.
Local Open Scope float_scope.

Lemma Prim2SF_nan : Prim2SF nan = S754_nan.
Proof. reflexivity. Qed.

Lemma Prim2SF_infinity : Prim2SF infinity = S754_infinity false.
Proof. reflexivity. Qed.

(** NaN propagates through products, quotients and sums. *)
Lemma mul_nan_l (x : float) : nan * x = nan.
Proof.
  apply Prim2SF_inj. rewrite mul_spec, Prim2SF_nan. reflexivity.
Qed.

Lemma mul_nan_r (x : float) : x * nan = nan.
Proof.
  apply Prim2SF_inj. rewrite mul_spec, Prim2SF_nan.
  destruct (Prim2SF x) as [[]|[]| |[] m e]; reflexivity.
Qed.

Lemma div_nan_l (x : float) : nan / x = nan.
Proof.
  apply Prim2SF_inj. rewrite div_spec, Prim2SF_nan. reflexivity.
Qed.

Lemma div_nan_r (x : float) : x / nan = nan.
Proof.
  apply Prim2SF_inj. rewrite div_spec, Prim2SF_nan.
  destruct (Prim2SF x) as [[]|[]| |[] m e]; reflexivity.
Qed.

Lemma add_nan_r (x : float) : x + nan = nan.
Proof.
  apply Prim2SF_inj. rewrite add_spec, Prim2SF_nan.
  destruct (Prim2SF x) as [[]|[]| |[] m e]; reflexivity.
Qed.

(** Multiplying by 1 is exact. *)
Lemma mul_one_r (x : float) : x * 1 = x.
Proof.
  apply Prim2SF_inj. rewrite mul_spec, Prim2SF_one.
  pose proof (Prim2SF_valid x) as Hv.
  destruct (Prim2SF x) as [s|s| |s m e]; try reflexivity.
  - cbn. destruct s; reflexivity.
  - cbn. destruct s; reflexivity.
  - unfold SF64mul, SFmul. rewrite xorb_false_r.
    exact (binary_round_aux_exact s m e 52 Hv).
Qed.

(** Dividing by 1 is exact. *)
Lemma div_one_r (x : float) : x / 1 = x.
Proof.
  apply Prim2SF_inj. rewrite div_spec, Prim2SF_one.
  pose proof (Prim2SF_valid x) as Hv.
  destruct (Prim2SF x) as [s|s| |s m e]; try reflexivity.
  - cbn. destruct s; reflexivity.
  - cbn. destruct s; reflexivity.
  - destruct (valid_finite_bounds _ _ _ Hv) as (He & Hd & Hn).
    unfold SF64div, SFdiv, SFdiv_core_binary. rewrite xorb_false_r.
    change (Zdigits2 4503599627370496 + -52)%Z with 1%Z.
    unfold fexp, SpecFloat.emin, prec, emax in *.
    destruct (Z.eq_dec e (-1074)) as [E|E].
    + (* smallest exponent: the quotient keeps mantissa and exponent *)
      replace (Z.min (Z.max (Zdigits2 (Z.pos m) + e - 1 - 53) (3 - 1024 - 53)) (e - -52))
        with e by lia.
      replace (e - -52 - e)%Z with 52%Z by lia. cbv iota.
      rewrite Z.shiftl_mul_pow2 by lia.
      assert (Hq : (Z.pos m * 2 ^ 52 / 4503599627370496 = Z.pos m)%Z)
        by (apply Z.div_mul; lia).
      assert (Hr : ((Z.pos m * 2 ^ 52) mod 4503599627370496 = 0)%Z)
        by (apply Z.mod_mul; lia).
      unfold Z.div in Hq. unfold Z.modulo in Hr.
      destruct (Z.div_eucl (Z.pos m * 2 ^ 52) 4503599627370496) as [q r].
      cbn [fst snd] in Hq, Hr. subst q r.
      rewrite new_location_zero. apply binary_round_aux_valid, Hv.
    + (* above it: the mantissa has 53 bits, the quotient one more *)
      rewrite Hn by lia.
      replace (Z.min (Z.max (53 + e - 1 - 53) (3 - 1024 - 53)) (e - -52))
        with (e - 1)%Z by lia.
      replace (e - -52 - (e - 1))%Z with 53%Z by lia. cbv iota.
      rewrite Z.shiftl_mul_pow2 by lia.
      assert (Hq : (Z.pos m * 2 ^ 53 / 4503599627370496 = Z.pos m * 2 ^ 1)%Z).
      { replace (Z.pos m * 2 ^ 53)%Z with (Z.pos m * 2 ^ 1 * 4503599627370496)%Z by lia.
        apply Z.div_mul. lia. }
      assert (Hr : ((Z.pos m * 2 ^ 53) mod 4503599627370496 = 0)%Z).
      { replace (Z.pos m * 2 ^ 53)%Z with (Z.pos m * 2 ^ 1 * 4503599627370496)%Z by lia.
        apply Z.mod_mul. lia. }
      unfold Z.div in Hq. unfold Z.modulo in Hr.
      destruct (Z.div_eucl (Z.pos m * 2 ^ 53) 4503599627370496) as [q r].
      cbn [fst snd] in Hq, Hr. subst q r.
      rewrite new_location_zero. exact (binary_round_aux_exact s m e 1 Hv).
Qed.

(** [x === y] on positive numbers is equality. *)
Lemma eqb_pos_eq (x y : float) :
  (0 <? x) = true -> (x =? y) = true -> x = y.
Proof.
  rewrite ltb_spec, eqb_spec, Prim2SF_zero. unfold SFltb, SFeqb.
  intros Hx He. apply Prim2SF_inj.
  destruct (Prim2SF x) as [[]|[]| |[] mx ex], (Prim2SF y) as [[]|[]| |[] my ey];
    try discriminate; try reflexivity.
  cbn [SFcompare] in He.
  destruct (Z.compare_spec ex ey) as [E|E|E]; try discriminate.
  change (PosDef.Pos.compare_cont Eq mx my) with (Pos.compare mx my) in He.
  destruct (Pos.compare_spec mx my) as [E'|E'|E']; try discriminate.
  congruence.
Qed.

(** A positive finite number is a finite binary64 number of sign [+]. *)
Lemma pos_finite_inv (x : float) :
  (0 <? x) = true -> isFinite x = true ->
  exists m e, Prim2SF x = S754_finite false m e.
Proof.
  unfold isFinite, is_finite, is_infinity.
  rewrite ltb_spec, eqb_spec, abs_spec, Prim2SF_zero, Prim2SF_infinity.
  unfold SFltb, SFeqb.
  destruct (Prim2SF x) as [[]|[]| |[] m e]; cbn; try discriminate.
  - rewrite orb_true_r. discriminate.
  - intros _ _. eauto.
Qed.

(** The growth base at zero rate is exactly 1. *)
Lemma growth_base_zero_rate (R n : float) :
  (R =? 0) = true -> (0 <? n) = true -> 1 + R / 100 / n = 1.
Proof.
  rewrite eqb_spec, ltb_spec, Prim2SF_zero. unfold SFeqb, SFltb. intros HR Hn.
  apply Prim2SF_inj. rewrite add_spec, !div_spec, Prim2SF_hundred, Prim2SF_one.
  destruct (Prim2SF R) as [[]|[]| |[] mr er]; try discriminate;
    destruct (Prim2SF n) as [[]|[]| |[] mn en]; try discriminate; reflexivity.
Qed.

(** A positive finite number times zero is zero. *)
Lemma mul_zero_r (n : float) :
  (0 <? n) = true -> isFinite n = true -> n * 0 = 0.
Proof.
  intros Hp Hf. destruct (pos_finite_inv n Hp Hf) as (m & e & E).
  apply Prim2SF_inj. rewrite mul_spec, E, Prim2SF_zero. reflexivity.
Qed.

(** A positive finite number divided by itself is 1. *)
Lemma div_self (x : float) :
  (0 <? x) = true -> isFinite x = true -> x / x = 1.
Proof.
  intros Hp Hf. destruct (pos_finite_inv x Hp Hf) as (m & e & E).
  apply Prim2SF_inj. rewrite div_spec, E. apply SFdiv_self.
Qed.

(** [x <= y] without [x < y] is [x === y]. *)
Lemma leb_not_ltb_eqb (x y : float) :
  (x <=? y) = true -> (x <? y) = false -> (x =? y) = true.
Proof.
  rewrite leb_spec, ltb_spec, eqb_spec. unfold SFleb, SFltb, SFeqb.
  destruct (SFcompare (Prim2SF x) (Prim2SF y)) as [[ | | ]|]; congruence.
Qed.

End Exact.

Import Rounding.
Import Exact.

(** ** Further properties of the solvers *)

(** X1: for a rate that is not NaN, [calculateTime] has five outcomes: the
    positivity error, the error for A < P, the value 0 for A = P, the
    division-by-zero error when n * log(1 + R/100/n) is zero, and otherwise
    the value log(A/P) / (n * log(1 + R/100/n)), or the invalid-time error
    when that is NaN or infinite.  The other three checks never fire. *)
Theorem calculateTime_outcomes (host : Host) (A P R n : float) :
  isNaN R = false ->
  calculateTime host A P R n =
    if (A <=? 0) || (P <=? 0) || (R <=? 0) || (n <=? 0) then error_result msg_time_guard
    else if A <? P then error_result msg_time_shrink
    else if A =? P then value_result 0
    else
      let denominator := n * Math_log host (1 + R / 100 / n) in
      let T_years := Math_log host (A / P) / denominator in
      if denominator =? 0 then error_result msg_time_div_zero
      else if isNaN T_years || negb (isFinite T_years) then error_result msg_time_invalid
      else value_result T_years.
Proof.
  intros HN. unfold calculateTime.
  destruct ((A <=? 0) || (P <=? 0) || (R <=? 0) || (n <=? 0)) eqn:Hg; [reflexivity|].
  apply orb_false_elim in Hg. destruct Hg as [Hg Hn].
  apply orb_false_elim in Hg. destruct Hg as [Hg HR].
  apply orb_false_elim in Hg. destruct Hg as [HA HP].
  rewrite (not_leb_zero_gtb R HR HN), !andb_true_r.
  destruct (A <? P) eqn:Hlt; [reflexivity|].
  destruct (A =? P) eqn:Heq; [reflexivity|].
  assert (H0 : (R =? 0) = false).
  { destruct (R =? 0) eqn:E; [|reflexivity].
    apply FloatFacts.eqb_true_leb_true in E. congruence. }
  rewrite H0, andb_false_r. cbv zeta.
  rewrite (ratio_positive A P HA HP Hlt Heq), (growth_base_positive R n HR Hn).
  reflexivity.
Qed.

Lemma calculateTime_outcomes_witness :
  calculateTime example_host 1200 1000 5 12 = error_result msg_time_invalid.
Proof.
  exact (calculateTime_outcomes example_host 1200 1000 5 12 eq_refl).
Defined.

(** X2: on a host whose [Math.log] maps NaN to NaN, [calculateTime] with a
    NaN rate never returns a value: it returns the positivity error, the
    "non-positive A/P ratio" error or the invalid-time error. *)
Theorem calculateTime_nan_rate_fails (host : Host) (A P n : float) :
  Math_log host nan = nan ->
  exists msg, calculateTime host A P nan n = error_result msg /\
    (msg = msg_time_guard \/ msg = msg_time_ratio \/ msg = msg_time_invalid).
Proof.
  intros Hl. unfold calculateTime.
  destruct ((A <=? 0) || (P <=? 0) || (nan <=? 0) || (n <=? 0)); [eauto|].
  change (gtb nan 0) with false. change (nan =? 0) with false.
  rewrite !andb_false_r. cbv zeta.
  rewrite !div_nan_l, add_nan_r, Hl, mul_nan_r, div_nan_r.
  change (nan =? 0) with false. change (nan <=? 0) with false.
  change (isNaN nan) with true. cbn [orb].
  destruct (A / P <=? 0); eauto 6.
Qed.

Lemma calculateTime_nan_rate_fails_witness :
  exists msg, calculateTime example_host 1200 1000 nan 12 = error_result msg /\
    (msg = msg_time_guard \/ msg = msg_time_ratio \/ msg = msg_time_invalid).
Proof.
  exact (calculateTime_nan_rate_fails example_host 1200 1000 12 eq_refl).
Defined.

(** X3: the guards of [calculateFinalAmount] and [calculatePrincipal] let a
    NaN first argument through: with the other three arguments accepted,
    both return NaN as a value, not an error. *)
Theorem nan_first_argument (host : Host) (R T n : float) :
  (R <? 0) = false -> (T <=? 0) = false -> (n <=? 0) = false ->
  calculateFinalAmount host nan R T n = value_result nan /\
  calculatePrincipal host nan R T n = value_result nan.
Proof.
  intros HR HT Hn. unfold calculateFinalAmount, calculatePrincipal.
  change (nan <=? 0) with false. rewrite HR, HT, Hn. cbn [orb].
  rewrite mul_nan_l, div_nan_l. split; reflexivity.
Qed.

Lemma nan_first_argument_witness :
  calculateFinalAmount example_host nan 5 1 1 = value_result nan /\
  calculatePrincipal example_host nan 5 1 1 = value_result nan.
Proof.
  apply (nan_first_argument example_host 5 1 1); reflexivity.
Defined.

(** X4: at rate zero, with positive T and n, the growth base 1 + (R/100)/n
    is exactly 1; on a host whose [Math.pow] returns 1 for that base, the
    amount of a positive principal X is X itself, and so is the principal
    of a positive amount X. *)
Theorem zero_rate_identity (host : Host) (X R T n : float) :
  (0 <? X) = true -> (R =? 0) = true -> (0 <? T) = true -> (0 <? n) = true ->
  Math_pow host 1 (n * T) = 1 ->
  calculateFinalAmount host X R T n = value_result X /\
  calculatePrincipal host X R T n = value_result X.
Proof.
  intros HX HR HT Hn Hp.
  unfold calculateFinalAmount, calculatePrincipal.
  rewrite (FloatFacts.ltb_true_leb_false _ _ HX),
          (FloatFacts.eqb_true_ltb_false _ _ HR),
          (FloatFacts.ltb_true_leb_false _ _ HT),
          (FloatFacts.ltb_true_leb_false _ _ Hn).
  cbn [orb]. rewrite (growth_base_zero_rate R n HR Hn), Hp, mul_one_r, div_one_r.
  split; reflexivity.
Qed.

Lemma zero_rate_identity_witness :
  calculateFinalAmount example_host 1000 0 1 1 = value_result 1000 /\
  calculatePrincipal example_host 1000 0 1 1 = value_result 1000.
Proof.
  apply (zero_rate_identity example_host 1000 0 1 1); reflexivity.
Defined.

(** X5: for a positive finite amount equal to the principal, positive T and
    a positive finite n, the ratio A / P is exactly 1; on a host whose
    [Math.pow] returns 1 for that base, [calculateRate] returns the
    rate 0. *)
Theorem calculateRate_equal_amounts (host : Host) (A P T n : float) :
  (0 <? A) = true -> isFinite A = true -> (A =? P) = true ->
  (0 <? T) = true -> (0 <? n) = true -> isFinite n = true ->
  Math_pow host 1 (1 / (n * T)) = 1 ->
  calculateRate host A P T n = value_result 0.
Proof.
  intros HA FA HAP HT Hn Fn Hp.
  pose proof (eqb_pos_eq A P HA HAP) as <-.
  unfold calculateRate.
  rewrite (FloatFacts.ltb_true_leb_false _ _ HA),
          (FloatFacts.ltb_true_leb_false _ _ HT),
          (FloatFacts.ltb_true_leb_false _ _ Hn).
  cbn [orb]. rewrite (FloatFacts.eqb_true_ltb_false _ _ HAP).
  rewrite (div_self A HA FA), Hp.
  change (1 <? 0) with false. change (1 - 1) with 0. cbv iota.
  rewrite (mul_zero_r n Hn Fn). reflexivity.
Qed.

Lemma calculateRate_equal_amounts_witness :
  calculateRate example_host 1000 1000 1 1 = value_result 0.
Proof.
  apply (calculateRate_equal_amounts example_host 1000 1000 1 1); reflexivity.
Defined.

(** ** Further properties of the form *)

(** [inputs] answers a field exactly for that field's key. *)
Lemma inputs_Some (key : string) (fld : Field) :
  inputs key = Some fld -> key = field_key fld.
Proof.
  unfold inputs.
  destruct (String.eqb_spec key "principal") as [->|_]; [intros [= <-]; reflexivity|].
  destruct (String.eqb_spec key "rate") as [->|_]; [intros [= <-]; reflexivity|].
  destruct (String.eqb_spec key "time") as [->|_]; [intros [= <-]; reflexivity|].
  destruct (String.eqb_spec key "frequency") as [->|_]; [intros [= <-]; reflexivity|].
  destruct (String.eqb_spec key "amount") as [->|_]; [intros [= <-]; reflexivity|].
  discriminate.
Qed.

Lemma inputs_None (key : string) (fld : Field) :
  inputs key = None -> (key =? field_key fld)%string = false.
Proof.
  unfold inputs. intros H.
  destruct (key =? "principal")%string eqn:Ep; [discriminate|].
  destruct (key =? "rate")%string eqn:Er; [discriminate|].
  destruct (key =? "time")%string eqn:Et; [discriminate|].
  destruct (key =? "frequency")%string eqn:Ef; [discriminate|].
  destruct (key =? "amount")%string eqn:Ea; [discriminate|].
  destruct fld; assumption.
Qed.

(** X6: [updateInputStates] keeps the selection; the field whose key is
    selected becomes empty, disabled and grey, and every other field keeps
    its text and becomes enabled with no background colour.  When the
    selection is none of the five keys, that is every field. *)
Theorem updateInputStates_effect (frm : Form) (fld : Field) :
  get_input (updateInputStates frm) fld =
    (if (solveForSelect frm =? field_key fld)%string
     then mkInput "" true "#e9e9e9"
     else mkInput (input_value (get_input frm fld)) false "") /\
  solveForSelect (updateInputStates frm) = solveForSelect frm.
Proof.
  destruct frm as [ip ir it ifr ia s].
  unfold updateInputStates. cbn [solveForSelect].
  destruct (inputs s) as [target|] eqn:Ei.
  - apply inputs_Some in Ei. subst s.
    destruct target, fld; split; reflexivity.
  - rewrite (inputs_None s fld Ei). destruct fld; split; reflexivity.
Qed.

(** A second call changes nothing. *)
Lemma updateInputStates_again (frm : Form) :
  updateInputStates (updateInputStates frm) = updateInputStates frm.
Proof.
  destruct frm as [ip ir it ifr ia s].
  unfold updateInputStates at 2 3. cbn [solveForSelect].
  destruct (inputs s) as [target|] eqn:Ei.
  - apply inputs_Some in Ei. subst s. destruct target; reflexivity.
  - unfold updateInputStates. cbn. rewrite Ei. reflexivity.
Qed.

Lemma updateInputStates_select (frm : Form) :
  solveForSelect (updateInputStates frm) = solveForSelect frm.
Proof.
  destruct frm as [ip ir it ifr ia s]. unfold updateInputStates. cbn [solveForSelect].
  destruct (inputs s) as [[]|]; reflexivity.
Qed.

(** X7: a call of [updateInputStates] on the form a call has left ends as
    that call did, by a return or by a TypeError, and leaves that form
    unchanged.  So the handler of [DOMContentLoaded] leaves the form of its
    first call, and has registered the listeners exactly when that call
    returned. *)
Theorem updateInputStates_idempotent (inherited : string -> bool) (frm : Form) :
  updateInputStates_completion inherited (updateInputStates frm) =
    updateInputStates_completion inherited frm /\
  updateInputStates (updateInputStates frm) = updateInputStates frm /\
  onDOMContentLoaded inherited frm =
    mkPage (updateInputStates frm)
      (match updateInputStates_completion inherited frm with
       | Returned => true
       | TypeError => false
       end).
Proof.
  split; [|split].
  - unfold updateInputStates_completion. rewrite updateInputStates_select. reflexivity.
  - apply updateInputStates_again.
  - unfold onDOMContentLoaded.
    destruct (updateInputStates_completion inherited frm);
      [rewrite updateInputStates_again|]; reflexivity.
Qed.

Lemma updateInputStates_cleared (frm : Form) : target_cleared (updateInputStates frm).
Proof.
  intros fld. unfold is_target. rewrite updateInputStates_select, updateInputStates_values.
  intros ->. reflexivity.
Qed.

Lemma type_into_cleared (fld : Field) (text : string) (frm : Form) :
  consistent frm = true -> target_cleared frm -> target_cleared (type_into fld text frm).
Proof.
  intros Hc Ht. unfold type_into.
  destruct (disabled (get_input frm fld)) eqn:Hd; [exact Ht|].
  rewrite (consistent_spec frm Hc fld) in Hd.
  intros g Hg.
  assert (Hsel : solveForSelect (set_input frm fld
            (mkInput text false (backgroundColor (get_input frm fld)))) = solveForSelect frm)
    by (destruct fld; reflexivity).
  unfold is_target in Hg, Hd. rewrite Hsel in Hg.
  specialize (Ht g Hg).
  destruct fld, g; cbn in *; congruence.
Qed.

Lemma type_into_enabled (fld : Field) (text : string) (frm : Form) :
  all_enabled frm -> all_enabled (type_into fld text frm).
Proof.
  intros H g. unfold type_into. rewrite (H fld).
  pose proof (H g) as Hg. destruct fld, g; cbn in *; congruence.
Qed.

Lemma updateInputStates_enabled (frm : Form) :
  inputs (solveForSelect frm) = None -> all_enabled (updateInputStates frm).
Proof.
  intros Hi fld. unfold updateInputStates. rewrite Hi. destruct fld; reflexivity.
Qed.

(** With the listeners registered, an event keeps the form in step with the
    selection. *)
Lemma step_listening (pg : Page) (ev : Event) :
  listening pg = true /\ consistent (page_form pg) = true /\ target_cleared (page_form pg) ->
  listening (step pg ev) = true /\
  consistent (page_form (step pg ev)) = true /\ target_cleared (page_form (step pg ev)).
Proof.
  intros (Hl & Hc & Ht). destruct ev as [fld text|key]; cbn [step].
  - cbn [listening page_form].
    repeat split; [exact Hl | apply type_into_consistent, Hc | apply type_into_cleared; assumption].
  - rewrite Hl. cbn [listening page_form].
    repeat split; [apply updateInputStates_consistent | apply updateInputStates_cleared].
Qed.

(** Without them, no event disables a field. *)
Lemma step_not_listening (pg : Page) (ev : Event) :
  listening pg = false /\ all_enabled (page_form pg) ->
  listening (step pg ev) = false /\ all_enabled (page_form (step pg ev)).
Proof.
  intros (Hl & He). destruct ev as [fld text|key]; cbn [step].
  - cbn [listening page_form]. split; [exact Hl | apply type_into_enabled, He].
  - rewrite Hl. cbn [listening page_form]. split; [reflexivity|].
    intros fld. specialize (He fld). destruct fld; exact He.
Qed.

(** X8: the page after it has loaded and after any sequence of typing and
    selecting.  When the first call of [updateInputStates] returned, the
    listeners are registered, the disabled flags follow the selection and
    the target's field is empty, whatever was selected since.  When it
    threw, the handler stopped at line 150: no listener is registered and no
    field is ever disabled. *)
Theorem page_invariant (inherited : string -> bool) (events : list Event) (frm0 : Form) :
  let pg := run inherited events frm0 in
  match updateInputStates_completion inherited frm0 with
  | Returned =>
      listening pg = true /\
      consistent (page_form pg) = true /\
      forall fld, is_target (page_form pg) fld = true ->
                  input_value (get_input (page_form pg) fld) = ""
  | TypeError =>
      listening pg = false /\
      forall fld, disabled (get_input (page_form pg) fld) = false
  end.
Proof.
  cbv zeta. unfold run, onDOMContentLoaded.
  destruct (updateInputStates_completion inherited frm0) eqn:Hcomp.
  - assert (H0 : listening (mkPage (updateInputStates (updateInputStates frm0)) true) = true /\
                 consistent (page_form (mkPage (updateInputStates (updateInputStates frm0)) true))
                   = true /\
                 target_cleared
                   (page_form (mkPage (updateInputStates (updateInputStates frm0)) true))).
    { cbn [listening page_form].
      repeat split; [apply updateInputStates_consistent | apply updateInputStates_cleared]. }
    revert H0. generalize (mkPage (updateInputStates (updateInputStates frm0)) true).
    induction events as [|ev events IH]; intros pg H; cbn [fold_left].
    + exact H.
    + apply IH, step_listening, H.
  - assert (H0 : listening (mkPage (updateInputStates frm0) false) = false /\
                 all_enabled (page_form (mkPage (updateInputStates frm0) false))).
    { cbn [listening page_form]. split; [reflexivity|].
      apply updateInputStates_enabled.
      unfold updateInputStates_completion in Hcomp.
      destruct (inputs (solveForSelect frm0)); [discriminate | reflexivity]. }
    revert H0. generalize (mkPage (updateInputStates frm0) false).
    induction events as [|ev events IH]; intros pg H; cbn [fold_left].
    + exact H.
    + apply IH, step_not_listening, H.
Qed.

(** The two cases at work, in a usual engine: with "amount" selected when
    the page loads, picking "constructor" and then "rate" ends with the rate
    as the disabled target; with "constructor" selected when the page loads,
    picking "rate" disables nothing. *)
Example page_loaded_with_amount :
  let pg := run usual_inherited [Selected "constructor"; Selected "rate"]
              (choose "amount" example_form) in
  listening pg = true /\ disabled (rateInput (page_form pg)) = true.
Proof. split; reflexivity. Qed.

Example page_loaded_with_constructor :
  let pg := run usual_inherited [Selected "rate"] (choose "constructor" example_form) in
  updateInputStates_completion usual_inherited (choose "constructor" example_form) = TypeError /\
  listening pg = false /\ disabled (rateInput (page_form pg)) = false.
Proof. repeat split; reflexivity. Qed.

(** ** Further properties of the controller *)

(** A form with no violation: the chain reports nothing, and no field
    other than the target violates its constraint. *)
Lemma valid_request (host : Host) (frm : Form) :
  consistent frm = true -> first_violation host frm = None ->
  validationError host frm = "" /\
  forall fld, is_target frm fld = false -> violated host frm fld = false.
Proof.
  intros Hc Hf. split.
  - rewrite (validationError_first_violation host frm Hc), Hf. reflexivity.
  - intros fld Ht. unfold first_violation in Hf.
    pose proof (find_none _ _ Hf fld) as H.
    cbv beta in H. rewrite Ht in H. apply H.
    unfold field_order. destruct fld; cbn; tauto.
Qed.

(** The display of a solver's result is an error paragraph only for an
    error result, and then shows its text. *)
Lemma render_error_inv (host : Host) (key : string) (fld : Field) (r : Result) (m : string) :
  solver_output fld r -> render host key r = ErrorParagraph m -> r = error_result m.
Proof.
  intros [f m' Hm| |f v]; unfold render.
  - destruct (solver_errors_truthy m' Hm) as [Hne _].
    cbn [error error_result truthy text_of]. rewrite Hne. cbn [negb].
    intros [= ->]. reflexivity.
  - cbn. discriminate.
  - unfold render_value. cbn [error message value value_result truthy].
    split_ifs; discriminate.
Qed.

(** X9: when the selection is a field's key and the validation chain finds
    nothing, one solver is called: the one for that field, with the numbers
    of the other four fields in the order A, P, R, T, n; the display is the
    display of its result. *)
Theorem performCalculation_wiring (host : Host) (frm : Form) (fld : Field) :
  solveForSelect frm = field_key fld ->
  validationError host frm = "" ->
  match arguments host frm fld with
  | [a; b; c; d] =>
      performCalculation host frm =
        mkOutcome (render host (field_key fld) (solver_of host fld a b c d))
          [Invoke fld a b c d]
  | _ => False
  end.
Proof.
  intros Hk Hv. unfold performCalculation. rewrite Hv, Hk.
  destruct fld; reflexivity.
Qed.

Lemma performCalculation_wiring_witness :
  performCalculation example_host valid_form =
    mkOutcome (render example_host "amount" (calculateFinalAmount example_host 1000 5 1 12))
      [Invoke amount 1000 5 1 12].
Proof.
  exact (performCalculation_wiring example_host valid_form amount eq_refl eq_refl).
Defined.

(** X10: a calculation request calls at most one solver, and calls none
    exactly when the validation chain reports an error or the selection is
    none of the five keys. *)
Theorem at_most_one_call (host : Host) (frm : Form) :
  (List.length (invoked (performCalculation host frm)) <= 1)%nat /\
  (invoked (performCalculation host frm) = [] <->
   validationError host frm <> "" \/ inputs (solveForSelect frm) = None).
Proof.
  unfold performCalculation.
  destruct (String.eqb_spec (validationError host frm) "") as [Hv|Hv]; cbn [negb].
  - destruct (inputs (solveForSelect frm)) as [fld|] eqn:Ei.
    + apply inputs_Some in Ei. rewrite Ei.
      split; [destruct fld; cbn; lia|].
      split; [destruct fld; discriminate | intros [H|H]; [contradiction | discriminate]].
    + pose proof (inputs_None _ amount Ei) as Ha.
      pose proof (inputs_None _ principal Ei) as Hp.
      pose proof (inputs_None _ rate Ei) as Hr.
      pose proof (inputs_None _ time Ei) as Ht.
      pose proof (inputs_None _ frequency Ei) as Hf.
      cbn [field_key] in Ha, Hp, Hr, Ht, Hf.
      unfold dispatch. rewrite Ha, Hp, Hr, Ht, Hf.
      cbn. split; [lia | split; auto].
  - cbn. split; [lia | split; auto].
Qed.



(** X12: when the target is the amount or the principal, on a form whose
    disabled flags follow the selection and whose other fields pass the
    validation, the solver's guard cannot fire: the solver returns a value
    and the display is the labelled value paragraph. *)
Theorem form_amount_principal_value (host : Host) (frm : Form) (fld : Field) :
  consistent frm = true ->
  fld = amount \/ fld = principal ->
  solveForSelect frm = field_key fld ->
  first_violation host frm = None ->
  exists v,
    match arguments host frm fld with
    | [x; r; t; n] => solver_of host fld x r t n = value_result v
    | _ => False
    end /\
    innerHTML (performCalculation host frm) =
      Paragraph (result_label fld ++ ": "
                 ++ Number_toString host (display_value host fld v) ++ unit_suffix fld).
Proof.
  intros Hc Hfld Hk Hf.
  destruct (valid_request host frm Hc Hf) as [Hv Hnv].
  assert (Ht : forall g, field_eqb g fld = false -> is_target frm g = false).
  { intros g Hg. unfold is_target. rewrite Hk.
    destruct Hfld; subst fld; destruct g; try discriminate; reflexivity. }
  unfold performCalculation. rewrite Hv, Hk. cbn [negb String.eqb].
  destruct Hfld; subst fld.
  - pose proof (Hnv principal (Ht principal eq_refl)) as Vp.
    pose proof (Hnv rate (Ht rate eq_refl)) as Vr.
    pose proof (Hnv time (Ht time eq_refl)) as Vt.
    pose proof (Hnv frequency (Ht frequency eq_refl)) as Vn.
    unfold violated, parsed in Vp, Vr, Vt, Vn. cbn [get_input] in Vp, Vr, Vt, Vn.
    apply orb_false_elim in Vp, Vr, Vt, Vn.
    destruct Vp as [_ Vp], Vr as [_ Vr], Vt as [_ Vt], Vn as [_ Vn].
    eexists. cbn [arguments parameter_order filter field_eqb negb map parsed get_input
                  solver_of field_key dispatch String.eqb Ascii.eqb Bool.eqb].
    unfold calculateFinalAmount at 1 2. rewrite Vp, Vr, Vt, Vn. cbn [orb].
    split; reflexivity.
  - pose proof (Hnv amount (Ht amount eq_refl)) as Va.
    pose proof (Hnv rate (Ht rate eq_refl)) as Vr.
    pose proof (Hnv time (Ht time eq_refl)) as Vt.
    pose proof (Hnv frequency (Ht frequency eq_refl)) as Vn.
    unfold violated, parsed in Va, Vr, Vt, Vn. cbn [get_input] in Va, Vr, Vt, Vn.
    apply orb_false_elim in Va, Vr, Vt, Vn.
    destruct Va as [_ Va], Vr as [_ Vr], Vt as [_ Vt], Vn as [_ Vn].
    eexists. cbn [arguments parameter_order filter field_eqb negb map parsed get_input
                  solver_of field_key dispatch String.eqb Ascii.eqb Bool.eqb].
    unfold calculatePrincipal at 1 2. rewrite Va, Vr, Vt, Vn. cbn [orb].
    split; reflexivity.
Qed.

Lemma form_amount_principal_value_witness :
  exists v,
    match arguments example_host valid_form amount with
    | [x; r; t; n] => solver_of example_host amount x r t n = value_result v
    | _ => False
    end /\
    innerHTML (performCalculation example_host valid_form) =
      Paragraph (result_label amount ++ ": "
                 ++ Number_toString example_host (display_value example_host amount v)
                 ++ unit_suffix amount).
Proof.
  exact (form_amount_principal_value example_host valid_form amount
           eq_refl (or_introl eq_refl) eq_refl eq_refl).
Defined.

(** X13: the validation accepts a rate of 0, which the time solver
    rejects: when the target is the time and the rate reads as 0, a valid
    form calls [calculateTime] and displays its positivity error. *)
Theorem form_time_zero_rate (host : Host) (frm : Form) :
  consistent frm = true ->
  solveForSelect frm = "time" ->
  first_violation host frm = None ->
  (parsed host frm rate =? 0) = true ->
  performCalculation host frm =
    mkOutcome (ErrorParagraph msg_time_guard)
      [Invoke time (parsed host frm amount) (parsed host frm principal)
         (parsed host frm rate) (parsed host frm frequency)].
Proof.
  intros Hc Hk Hf H0.
  destruct (valid_request host frm Hc Hf) as [Hv _].
  unfold performCalculation. rewrite Hv, Hk.
  cbn [negb String.eqb dispatch Ascii.eqb Bool.eqb].
  unfold parsed in *. cbn [get_input] in *.
  unfold calculateTime.
  rewrite (FloatFacts.eqb_true_leb_true _ _ H0), orb_true_r. cbn [orb].
  reflexivity.
Qed.

Lemma form_time_zero_rate_witness :
  performCalculation table_host zero_rate_form =
    mkOutcome (ErrorParagraph msg_time_guard) [Invoke time 1200 1000 0 12].
Proof.
  exact (form_time_zero_rate table_host zero_rate_form eq_refl eq_refl eq_refl eq_refl).
Defined.

(** X14: on a valid form, the display is the positivity error of the
    target's solver only when the target is the time and the rate reads as
    0: for every other request the validation has already excluded what the
    solver's first guard rejects. *)
Theorem positivity_error_through_form (host : Host) (frm : Form) (fld : Field) (m : string) :
  consistent frm = true ->
  solveForSelect frm = field_key fld ->
  first_violation host frm = None ->
  positivity_error fld = Some m ->
  innerHTML (performCalculation host frm) = ErrorParagraph m ->
  fld = time /\ (parsed host frm rate =? 0) = true.
Proof.
  intros Hc Hk Hf Hm Hh.
  destruct (valid_request host frm Hc Hf) as [Hv Hnv].
  assert (Ht : forall g, field_eqb g fld = false -> is_target frm g = false).
  { intros g Hg. unfold is_target. rewrite Hk.
    destruct fld, g; try discriminate; reflexivity. }
  unfold performCalculation in Hh. rewrite Hv, Hk in Hh.
  destruct fld; cbn [positivity_error] in Hm; try discriminate; injection Hm as <-;
    cbn [negb String.eqb field_key dispatch Ascii.eqb Bool.eqb innerHTML] in Hh.
  - (* principal *)
    apply (render_error_inv host _ principal) in Hh;
      [|apply (solver_of_output host principal)].
    pose proof (Hnv amount (Ht amount eq_refl)) as Va.
    pose proof (Hnv rate (Ht rate eq_refl)) as Vr.
    pose proof (Hnv time (Ht time eq_refl)) as Vt.
    pose proof (Hnv frequency (Ht frequency eq_refl)) as Vn.
    unfold violated, parsed in Va, Vr, Vt, Vn. cbn [get_input] in Va, Vr, Vt, Vn.
    apply orb_false_elim in Va, Vr, Vt, Vn.
    destruct Va as [_ Va], Vr as [_ Vr], Vt as [_ Vt], Vn as [_ Vn].
    unfold calculatePrincipal in Hh. rewrite Va, Vr, Vt, Vn in Hh. discriminate.
  - (* rate *)
    apply (render_error_inv host _ rate) in Hh; [|apply (solver_of_output host rate)].
    pose proof (Hnv amount (Ht amount eq_refl)) as Va.
    pose proof (Hnv principal (Ht principal eq_refl)) as Vp.
    pose proof (Hnv time (Ht time eq_refl)) as Vt.
    pose proof (Hnv frequency (Ht frequency eq_refl)) as Vn.
    unfold violated, parsed in Va, Vp, Vt, Vn. cbn [get_input] in Va, Vp, Vt, Vn.
    apply orb_false_elim in Va, Vp, Vt, Vn.
    destruct Va as [_ Va], Vp as [_ Vp], Vt as [_ Vt], Vn as [_ Vn].
    unfold calculateRate in Hh. rewrite Va, Vp, Vt, Vn in Hh. cbn [orb] in Hh.
    revert Hh. split_ifs; intros Hh; discriminate.
  - (* time *)
    split; [reflexivity|].
    apply (render_error_inv host _ time) in Hh; [|apply (solver_of_output host time)].
    pose proof (Hnv amount (Ht amount eq_refl)) as Va.
    pose proof (Hnv principal (Ht principal eq_refl)) as Vp.
    pose proof (Hnv rate (Ht rate eq_refl)) as Vr.
    pose proof (Hnv frequency (Ht frequency eq_refl)) as Vn.
    unfold violated in Va, Vp, Vr, Vn.
    apply orb_false_elim in Va, Vp, Vr, Vn.
    destruct Va as [_ Va], Vp as [_ Vp], Vr as [_ Vr], Vn as [_ Vn].
    unfold parsed in *. cbn [get_input] in *.
    unfold calculateTime in Hh. rewrite Va, Vp, Vn in Hh. cbn [orb] in Hh.
    rewrite orb_false_r in Hh.
    destruct (parseFloat host (input_value (rateInput frm)) <=? 0) eqn:Hle.
    + apply leb_not_ltb_eqb; assumption.
    + exfalso. revert Hh. cbv zeta. split_ifs; intros Hh; discriminate.
  - (* amount *)
    apply (render_error_inv host _ amount) in Hh; [|apply (solver_of_output host amount)].
    pose proof (Hnv principal (Ht principal eq_refl)) as Vp.
    pose proof (Hnv rate (Ht rate eq_refl)) as Vr.
    pose proof (Hnv time (Ht time eq_refl)) as Vt.
    pose proof (Hnv frequency (Ht frequency eq_refl)) as Vn.
    unfold violated, parsed in Vp, Vr, Vt, Vn. cbn [get_input] in Vp, Vr, Vt, Vn.
    apply orb_false_elim in Vp, Vr, Vt, Vn.
    destruct Vp as [_ Vp], Vr as [_ Vr], Vt as [_ Vt], Vn as [_ Vn].
    unfold calculateFinalAmount in Hh. rewrite Vp, Vr, Vt, Vn in Hh. discriminate.
Qed.

Lemma positivity_error_through_form_witness :
  time = time /\ (parsed table_host zero_rate_form rate =? 0) = true.
Proof.
  exact (positivity_error_through_form table_host zero_rate_form time msg_time_guard
           eq_refl eq_refl eq_refl eq_refl eq_refl).
Defined.

(** X15: when the selection is none of the five keys, all five fields are
    validated; the display is the first violation's message, or the
    invalid-selection error when there is none, and no solver is called. *)
Theorem unknown_selection (host : Host) (frm : Form) :
  consistent frm = true ->
  inputs (solveForSelect frm) = None ->
  performCalculation host frm =
    mkOutcome
      (ErrorParagraph
         match find (violated host frm) field_order with
         | Some fld => validation_message fld
         | None => msg_invalid_selection
         end)
      [].
Proof.
  intros Hc Hi.
  assert (Hfv : first_violation host frm = find (violated host frm) field_order).
  { unfold first_violation, is_target. cbn [find field_order].
    rewrite (inputs_None _ principal Hi), (inputs_None _ rate Hi), (inputs_None _ time Hi),
      (inputs_None _ frequency Hi), (inputs_None _ amount Hi). reflexivity. }
  unfold performCalculation.
  rewrite (validationError_first_violation host frm Hc), Hfv.
  destruct (find (violated host frm) field_order) as [fld|].
  - destruct fld; reflexivity.
  - pose proof (inputs_None _ amount Hi) as Ha.
    pose proof (inputs_None _ principal Hi) as Hp.
    pose proof (inputs_None _ rate Hi) as Hr.
    pose proof (inputs_None _ time Hi) as Ht.
    pose proof (inputs_None _ frequency Hi) as Hq.
    cbn [field_key] in Ha, Hp, Hr, Ht, Hq.
    cbn [negb String.eqb]. unfold dispatch. rewrite Ha, Hp, Hr, Ht, Hq. reflexivity.
Qed.

Lemma unknown_selection_witness :
  performCalculation example_host unselected_form =
    mkOutcome (ErrorParagraph msg_invalid_selection) [].
Proof.
  exact (unknown_selection example_host unselected_form eq_refl eq_refl).
Defined.

(** X16: a value is displayed as the capitalised key, a colon and the
    number: rounded to two decimals for the principal, the amount, the rate
    (followed by a percent sign) and the time (followed by " years"), and
    rounded to an integer for the frequency.  The four-decimal rounding of
    line 221 never reaches the display for these five keys. *)
Theorem render_value_result (host : Host) (fld : Field) (v : float) :
  render host (field_key fld) (value_result v) =
    Paragraph (result_label fld ++ ": "
               ++ Number_toString host (display_value host fld v) ++ unit_suffix fld).
Proof. destruct fld; reflexivity. Qed.
